(** * spyrmsd: symmetry-corrected RMSD — a shallow embedding

    The development follows the repository's modules:
    - [nx]       : spyrmsd/graphs/nx.py  (graph construction and matching)
    - [rmsd]     : pyrmsd/rmsd.py        (the RMSD entry points)
    - [parallel] : the batch wrapper, whose code is not part of the
                   sources at hand and is modelled from the specification.

    float64 arithmetic is idealised to the real numbers [R]; numpy arrays
    of coordinates are lists of points, integer arrays are lists of [Z],
    Python dictionaries are [gmap]s (or association lists where the
    insertion order is observable), and the objects that the code mutates
    in place live in an explicit heap. *)

From Stdlib Require Import Reals Lra.
From stdpp Require Import gmap strings list fin_maps functions relations.

(** ** Exceptions and the error monad *)

Inductive exn :=
  | AssertionError
  | ValueError
  | KeyError
  | IndexError
  | NetworkXError
  | LabelCountMismatch.

Inductive result (A : Type) :=
  | Ok (a : A)
  | Raise (e : exn).
Arguments Ok {A} a.
Arguments Raise {A} e.

Definition rbind {A B : Type} (r : result A) (k : A → result B) : result B :=
  match r with
  | Ok a => k a
  | Raise e => Raise e
  end.

Notation "x ←? r ; k" := (rbind r (λ x, k))
  (at level 20, r at level 100, k at level 200, right associativity,
   format "'[v' x  ←?  r ;  '/' k ']'").

Definition raises {A : Type} (r : result A) : Prop := ∃ e, r = Raise e.

(** * spyrmsd/graphs/nx.py *)

Module nx.

(** A [networkx.Graph]: the node dictionary (node -> attribute dictionary)
    and the adjacency dictionary (node -> neighbours).  Edge data play no
    part in the code under study and are left out. *)
Record Graph := mkGraph {
  nodes : gmap nat (gmap string Z);
  adj : gmap nat (gset nat)
}.

(** [G.nodes[u]] for a node of the graph. *)
Definition attrs (G : Graph) (u : nat) : gmap string Z :=
  default ∅ (nodes G !! u).

Definition node_list (G : Graph) : list nat := elements (dom (nodes G)).

Definition has_edge (G : Graph) (u v : nat) : bool :=
  bool_decide (v ∈ default ∅ (adj G !! u)).

(** [num_vertices], [vertex_property] *)
Definition num_vertices (G : Graph) : nat := size (nodes G).

Definition vertex_property (G : Graph) (vproperty : string) (idx : nat)
  : result Z :=
  match nodes G !! idx with
  | None => Raise KeyError
  | Some d => match d !! vproperty with
              | None => Raise KeyError
              | Some v => Ok v
              end
  end.

(** [nx.Graph(adjacency_matrix)] for a two-dimensional numpy array of
    integers, given by its rows: networkx refuses a matrix that is not
    square, creates the nodes [0 .. n-1] with empty attribute
    dictionaries, and joins [i] and [j] when the entry [(i, j)] or
    [(j, i)] is non-zero.  The type hint of [graph_from_adjacency_matrix]
    also admits a Python list of lists; networkx reads such a list as a
    list of edges, not as a matrix, and that input (like an array of
    Python objects) is outside this model and outside every statement
    below. *)
Definition nonzero (A : list (list Z)) (i j : nat) : bool :=
  match A !! i ≫= (.!! j) with
  | Some x => negb (x =? 0)%Z
  | None => false
  end.

Definition Graph_of_array (A : list (list Z)) : result Graph :=
  let n := length A in
  if forallb (λ row, length row =? n) A then
    Ok {| nodes := map_seq 0 (replicate n ∅);
          adj := map_seq 0
                   ((λ i, list_to_set
                            (List.filter (λ j, nonzero A i j || nonzero A j i)
                                         (seq 0 n))) <$> seq 0 n) |}
  else Raise NetworkXError.

(** [nx.set_node_attributes(G, values, name)] with a dictionary of values:
    every key that is a node of [G] gets [name] set; other keys are
    skipped. *)
Definition set_node_attributes (G : Graph) (values : gmap nat Z)
    (name : string) : Graph :=
  {| nodes := map_imap (λ n d, Some (match values !! n with
                                      | Some v => <[name := v]> d
                                      | None => d
                                      end)) (nodes G);
     adj := adj G |}.

(** [nx.get_node_attributes(G, name)]: the nodes that carry [name]. *)
Definition get_node_attributes (G : Graph) (name : string) : gmap nat Z :=
  omap (λ d, d !! name) (nodes G).

Definition graph_from_adjacency_matrix (adjacency_matrix : list (list Z))
    (atomicnums : option (list Z)) : result Graph :=
  G ←? Graph_of_array adjacency_matrix;
  match atomicnums with
  | Some atomicnums =>
      let attributes := map_seq 0 atomicnums in
      Ok (set_node_attributes G attributes "atomicnum")
  | None => Ok G
  end.

(** The inner function of [match_graphs]: a dictionary lookup raises
    [KeyError] on a node without the attribute. *)
Definition getitem (d : gmap string Z) (k : string) : result Z :=
  match d !! k with
  | Some v => Ok v
  | None => Raise KeyError
  end.

Definition match_atomicnum (node1 node2 : gmap string Z) : result bool :=
  a1 ←? getitem node1 "atomicnum";
  a2 ←? getitem node2 "atomicnum";
  Ok (a1 =? a2)%Z.

(** ** The graph matcher

    [networkx.algorithms.isomorphism.GraphMatcher] is a library the code
    calls; it is modelled by what it computes, not by its VF2 search: the
    candidates are the one-to-one correspondences between the two node
    sets, kept when they preserve adjacency (syntactic feasibility) and
    when [node_match] accepts every matched pair of nodes (semantic
    feasibility).  A mapping is the dictionary the matcher yields, in
    insertion order. *)
Abbreviation mapping := (list (nat * nat)).

Definition candidates (G1 G2 : Graph) : list mapping :=
  if length (node_list G1) =? length (node_list G2)
  then zip (node_list G1) <$> permutations (node_list G2)
  else [].

Definition syntactic_feasibility (G1 G2 : Graph) (m : mapping) : bool :=
  forallb (λ p, forallb (λ q,
    bool_decide (has_edge G1 p.1 q.1 = has_edge G2 p.2 q.2)) m) m.

Fixpoint semantic_feasibility
    (node_match : gmap string Z → gmap string Z → result bool)
    (G1 G2 : Graph) (m : mapping) : result bool :=
  match m with
  | [] => Ok true
  | (u, v) :: m' =>
      b ←? node_match (attrs G1 u) (attrs G2 v);
      if b : bool then semantic_feasibility node_match G1 G2 m' else Ok false
  end.

Fixpoint select (node_match : option (gmap string Z → gmap string Z → result bool))
    (G1 G2 : Graph) (cands : list mapping) : result (list mapping) :=
  match cands with
  | [] => Ok []
  | m :: rest =>
      b ←? match node_match with
           | None => Ok true
           | Some f => semantic_feasibility f G1 G2 m
           end;
      r ←? select node_match G1 G2 rest;
      Ok (if b : bool then m :: r else r)
  end.

Definition isomorphisms_iter
    (node_match : option (gmap string Z → gmap string Z → result bool))
    (G1 G2 : Graph) : result (list mapping) :=
  select node_match G1 G2
    (List.filter (syntactic_feasibility G1 G2) (candidates G1 G2)).

Definition is_isomorphic
    (node_match : option (gmap string Z → gmap string Z → result bool))
    (G1 G2 : Graph) : result bool :=
  l ←? isomorphisms_iter node_match G1 G2;
  Ok (negb (bool_decide (l = []))).

Definition no_atomicnum_warning : string :=
  "No atomic number information stored on nodes. Node matching is not performed...".

(** [match_graphs] returns its value (or raises) and the warnings it has
    issued on the way. *)
Definition match_graphs (G1 G2 : Graph)
  : list string * result (list (list nat * list nat)) :=
  let '(node_match, warned) :=
    if bool_decide (get_node_attributes G1 "atomicnum" = ∅)
       || bool_decide (get_node_attributes G2 "atomicnum" = ∅)
    then (None, [no_atomicnum_warning])
    else (Some match_atomicnum, [])
  in
  (warned,
   iso ←? is_isomorphic node_match G1 G2;
   if negb iso then Raise ValueError
   else
     l ←? isomorphisms_iter node_match G1 G2;
     Ok ((λ isomorphism : mapping, (isomorphism.*1, isomorphism.*2)) <$> l)).

(** ** What the matcher is meant to compute *)

(** No vertex carries an atomic number / every vertex carries one. *)
Definition unlabelled (G : Graph) : Prop :=
  map_Forall (λ _ d, d !! "atomicnum" = None) (nodes G).

Definition fully_labelled (G : Graph) : Prop :=
  map_Forall (λ _ d, is_Some (d !! "atomicnum")) (nodes G).

(** The two node-compatibility predicates. *)
Definition same_atomicnum (d1 d2 : gmap string Z) : Prop :=
  ∃ z, d1 !! "atomicnum" = Some z ∧ d2 !! "atomicnum" = Some z.

Definition structure_only (d1 d2 : gmap string Z) : Prop := True.

(** The predicate that applies to a pair of graphs: labels are compared
    only when both graphs carry some. *)
Definition applicable (G1 G2 : Graph) : gmap string Z → gmap string Z → Prop :=
  if decide (unlabelled G1 ∨ unlabelled G2) then structure_only
  else same_atomicnum.

(** A mapping (a dictionary, whatever the order of its items) is an
    isomorphism when it is a one-to-one correspondence between the node
    sets that preserves adjacency and matches compatible nodes. *)
Definition is_isomorphism (compat : gmap string Z → gmap string Z → Prop)
    (G1 G2 : Graph) (m : mapping) : Prop :=
  m.*1 ≡ₚ node_list G1 ∧
  m.*2 ≡ₚ node_list G2 ∧
  (∀ p q, p ∈ m → q ∈ m → has_edge G1 p.1 q.1 = has_edge G2 p.2 q.2) ∧
  (∀ p, p ∈ m → compat (attrs G1 p.1) (attrs G2 p.2)).

Definition isomorphic (compat : gmap string Z → gmap string Z → Prop)
    (G1 G2 : Graph) : Prop :=
  ∃ m, is_isomorphism compat G1 G2 m.

(** An adjacency matrix is square. *)
Definition square (A : list (list Z)) : Prop :=
  Forall (λ row, length row = length A) A.

(** The labelled graphs of the data model: a graph either has a label on
    every vertex or on none (in which case matching is structural). *)
Definition labelled_pair (G1 G2 : Graph) : Prop :=
  (unlabelled G1 ∨ unlabelled G2) ∨ (fully_labelled G1 ∧ fully_labelled G2).

(** ** Auxiliary definitions and examples *)

(** The node-matching function that [match_graphs] settles on. *)
Definition chosen_node_match (G1 G2 : Graph)
  : option (gmap string Z → gmap string Z → result bool) :=
  if bool_decide (get_node_attributes G1 "atomicnum" = ∅)
     || bool_decide (get_node_attributes G2 "atomicnum" = ∅)
  then None else Some match_atomicnum.

(** [node_match] can be evaluated on every pair of the mapping [m], and
    accepts them all exactly when they are compatible. *)
Definition evaluates
    (node_match : option (gmap string Z → gmap string Z → result bool))
    (compat : gmap string Z → gmap string Z → Prop)
    (G1 G2 : Graph) (m : mapping) : Prop :=
  ∃ b, match node_match with
       | None => Ok true
       | Some f => semantic_feasibility f G1 G2 m
       end = Ok b ∧
       (b = true ↔ ∀ p, p ∈ m → compat (attrs G1 p.1) (attrs G2 p.2)).

(** Example graphs: dihydrogen (two bonded hydrogens), and unlabelled
    graphs on one and on two vertices. *)
Definition H2 : Graph :=
  mkGraph {[ 0 := {[ "atomicnum" := 1%Z ]}; 1 := {[ "atomicnum" := 1%Z ]} ]}
          {[ 0 := {[ 1 ]}; 1 := {[ 0 ]} ]}.

Definition one_vertex : Graph := mkGraph {[ 0 := ∅ ]} {[ 0 := ∅ ]}.

Definition two_vertices : Graph :=
  mkGraph {[ 0 := ∅; 1 := ∅ ]} {[ 0 := ∅; 1 := ∅ ]}.

(** Two bonded vertices without labels: the structure of dihydrogen. *)
Definition two_bonded : Graph :=
  mkGraph {[ 0 := ∅; 1 := ∅ ]} {[ 0 := {[ 1 ]}; 1 := {[ 0 ]} ]}.

(** Hydroxyl: a hydrogen bonded to an oxygen. *)
Definition OH : Graph :=
  mkGraph {[ 0 := {[ "atomicnum" := 1%Z ]}; 1 := {[ "atomicnum" := 8%Z ]} ]}
          {[ 0 := {[ 1 ]}; 1 := {[ 0 ]} ]}.

(** Two bonded vertices of which only the first is labelled. *)
Definition two_bonded_one_label : Graph :=
  mkGraph {[ 0 := {[ "atomicnum" := 6%Z ]}; 1 := ∅ ]}
          {[ 0 := {[ 1 ]}; 1 := {[ 0 ]} ]}.

(** ** Mappings read the other way round, and the identity *)

(** A mapping from the nodes of the second graph back to those of the
    first: every item is turned round. *)
Definition swap_mapping (m : mapping) : mapping := (λ p, (p.2, p.1)) <$> m.

(** The mapping that sends every node of [G] to itself. *)
Definition identity_on (G : Graph) : mapping := (λ u, (u, u)) <$> node_list G.

End nx.

(** * pyrmsd/rmsd.py *)

Module rmsd.

Local Open Scope R_scope.

(** ** numpy arrays and the heap

    A coordinate array has shape (N, 3): a list of points.  The arrays are
    objects on a heap, and a name such as [c1] is a reference to one of
    them, so that an in-place operation ([-=]) is seen through every
    reference to the same array. *)
Abbreviation point := (R * R * R)%type.
Abbreviation coords := (list point).
Abbreviation loc := nat.
Abbreviation heap := (loc → coords).

Definition psub (p q : point) : point :=
  (p.1.1 - q.1.1, p.1.2 - q.1.2, p.2 - q.2).

(** [a - b] for two arrays of one shape, [a - v] for a row vector [v]
    (broadcast over the rows), [a ** 2], [np.sum(a)]. *)
Definition np_sub (a b : coords) : coords := zip_with psub a b.

Definition np_sub_row (a : coords) (v : point) : coords :=
  (λ p, psub p v) <$> a.

Definition np_square (a : coords) : coords :=
  (λ p : point, (p.1.1 * p.1.1, p.1.2 * p.1.2, p.2 * p.2)) <$> a.

Definition np_sum (a : coords) : R :=
  foldr (λ (p : point) acc, p.1.1 + p.1.2 + p.2 + acc) 0 a.

(** [a == b] on two one-dimensional integer arrays needs shapes that can
    be broadcast against each other: equal lengths, or one array of a
    single element. *)
Definition broadcastable (a b : list Z) : bool :=
  (length a =? length b)%nat || (length a =? 1)%nat || (length b =? 1)%nat.

(** [np.all(a == b)] on shapes that can be broadcast: elementwise on equal
    shapes, a one-element array against every element of the other.  (On
    other shapes [==] does not return; see [assert_all_eq].) *)
Definition np_all_eq (a b : list Z) : bool :=
  if (length a =? length b)%nat then
    forallb (λ xy : Z * Z, (xy.1 =? xy.2)%Z) (zip a b)
  else match a, b with
       | [x], _ => forallb (λ y, (x =? y)%Z) b
       | _, [y] => forallb (λ x, (x =? y)%Z) a
       | _, _ => false
       end.

(** [a[idx, :]]: the rows of [a] at the indices [idx], in that order, as a
    new array. *)
Fixpoint take_rows (a : coords) (idx : list nat) : result coords :=
  match idx with
  | [] => Ok []
  | i :: idx' =>
      match a !! i with
      | None => Raise IndexError
      | Some p => rows ←? take_rows a idx'; Ok (p :: rows)
      end
  end.

(** ** Molecules

    The molecule class is not part of the sources at hand; the functions
    read three attributes of it and call three methods.  The atomic
    numbers are only ever read; the coordinates are a reference into the
    heap. *)
Record Molecule := mkMolecule {
  atomicnums : list Z;
  coordinates : loc;
  graph : nx.Graph
}.

(** Modelled from the spec: [len(mol)] is missing from the sources; a
    coordinate set is "N 3D points paired 1:1 with N atomic-number
    integers", and the length of a molecule is that N. *)
Definition len (mol : Molecule) : nat := length (atomicnums mol).

(** Modelled from the spec: [mol.to_graph()] is missing from the sources;
    the molecule adapter exposes "to_graph() -> LabeledGraph". *)
Definition to_graph (mol : Molecule) : nx.Graph := graph mol.

(** Modelled from the spec: [mol.center_of_geometry()] is missing from the
    sources; centering is to "subtract each set's own centroid", the mean
    of the points. *)
Definition centroid (a : coords) : point :=
  let n := INR (length a) in
  (foldr (λ (p : point) acc, p.1.1 + acc) 0 a / n,
   foldr (λ (p : point) acc, p.1.2 + acc) 0 a / n,
   foldr (λ (p : point) acc, p.2 + acc) 0 a / n).

(** ** Computations: a heap threaded through, and exceptions *)
Definition M (A : Type) : Type := heap → result A * heap.

Definition ret {A : Type} (a : A) : M A := λ h, (Ok a, h).

Definition bind {A B : Type} (m : M A) (k : A → M B) : M B :=
  λ h, match m h with
       | (Ok a, h') => k a h'
       | (Raise e, h') => (Raise e, h')
       end.

Notation "x <- m ;; k" := (bind m (λ x, k))
  (at level 100, m at level 99, k at level 200, right associativity,
   format "'[v' x  <-  m  ;;  '/' k ']'").
Notation "m ;; k" := (bind m (λ _, k))
  (at level 100, k at level 200, right associativity,
   format "'[v' m  ;;  '/' k ']'").

Definition lift {A : Type} (r : result A) : M A := λ h, (r, h).

Definition assert (b : bool) : M unit :=
  lift (if b then Ok () else Raise AssertionError).

(** [assert np.all(a == b)]: on shapes that cannot be broadcast the
    comparison [a == b] itself raises [ValueError], before [np.all] and
    the assertion are reached (numpy as it is now; earlier versions
    answered [False] with a deprecation warning, and the assertion
    failed); otherwise the assertion passes or raises [AssertionError]. *)
Definition assert_all_eq (a b : list Z) : M unit :=
  if broadcastable a b then assert (np_all_eq a b)
  else lift (Raise ValueError).

(** The exception that [assert np.all(a == b)] raises when it does not
    pass. *)
Definition comparison_error (a b : list Z) : exn :=
  if broadcastable a b then AssertionError else ValueError.

(** Reading the array behind a reference; [c -= v] in place. *)
Definition read (c : loc) : M coords := λ h, (Ok (h c), h).

Definition isub (c : loc) (v : point) : M unit :=
  λ h, (Ok (), <[c := np_sub_row (h c) v]> h).

Definition center_of_geometry (mol : Molecule) : M point :=
  a <- read (coordinates mol) ;;
  ret (centroid a).

(** [a.shape == b.shape] for two (N, 3) arrays, and for two
    one-dimensional arrays. *)
Definition same_shape {A : Type} (a b : list A) : bool :=
  (length a =? length b)%nat.

Section rmsd.

(** The modules [pyrmsd.qcp] and [pyrmsd.graph] are not part of the sources
    at hand: the functions below take what they call from them as
    parameters.  [rmsd_isomorphic] reads the result of
    [graph.match_graphs] through [keys()] and [values()]: it is one
    mapping, a dictionary from the nodes of the first graph to those of
    the second, read in insertion order.  ([nx.match_graphs] above returns
    a list of pairs of lists instead, which has neither.) *)
Variable qcp_rmsd : coords → coords → result R.
Variable match_graphs : nx.Graph → nx.Graph → result (list (nat * nat)).

Definition rmsd_dummy (mol1 mol2 : Molecule) (center : bool) : M R :=
  assert_all_eq (atomicnums mol1) (atomicnums mol2) ;;
  a1 <- read (coordinates mol1) ;;
  a2 <- read (coordinates mol2) ;;
  assert (same_shape a1 a2) ;;
  let n := len mol1 in
  let c1 := coordinates mol1 in
  let c2 := coordinates mol2 in
  (if center then
     cog1 <- center_of_geometry mol1 ;;
     isub c1 cog1 ;;
     cog2 <- center_of_geometry mol2 ;;
     isub c2 cog2
   else ret ()) ;;
  a1 <- read c1 ;;
  a2 <- read c2 ;;
  ret (sqrt (np_sum (np_square (np_sub a1 a2)) / INR n)).

Definition rmsd_qcp (mol1 mol2 : Molecule) : M R :=
  assert_all_eq (atomicnums mol1) (atomicnums mol2) ;;
  a1 <- read (coordinates mol1) ;;
  cog1 <- center_of_geometry mol1 ;;
  let c1 := np_sub_row a1 cog1 in
  a2 <- read (coordinates mol2) ;;
  cog2 <- center_of_geometry mol2 ;;
  let c2 := np_sub_row a2 cog2 in
  lift (qcp_rmsd c1 c2).

Definition rmsd_isomorphic (mol1 mol2 : Molecule) (center : bool) : M R :=
  assert (same_shape (atomicnums mol1) (atomicnums mol2)) ;;
  a1 <- read (coordinates mol1) ;;
  a2 <- read (coordinates mol2) ;;
  assert (same_shape a1 a2) ;;
  let n := len mol1 in
  let c1 := coordinates mol1 in
  let c2 := coordinates mol2 in
  (if center then
     cog1 <- center_of_geometry mol1 ;;
     isub c1 cog1 ;;
     cog2 <- center_of_geometry mol2 ;;
     isub c2 cog2
   else ret ()) ;;
  let G1 := to_graph mol1 in
  let G2 := to_graph mol2 in
  mapping <- lift (match_graphs G1 G2) ;;
  (* Use the mapping to shuffle coordinates around *)
  a1 <- read c1 ;;
  c1 <- lift (take_rows a1 (mapping.*1)) ;;
  a2 <- read c2 ;;
  c2 <- lift (take_rows a2 (mapping.*2)) ;;
  (* Apply dummy RMSD formula on shuffled coordinates *)
  ret (sqrt (np_sum (np_square (np_sub c1 c2)) / INR n)).

End rmsd.

(** ** The assignment-based RMSD *)

Section hungarian.

(** The assignment capability: "a minimum-cost bipartite perfect-matching
    solver over a square real-valued cost matrix, returning a
    permutation" (the column matched to each row). *)
Variable linear_sum_assignment : list (list R) → list nat.

(** The atoms that carry the atomic number [z], by index. *)
Definition class_indices (z : Z) (labels : list Z) : list nat :=
  List.filter (λ i, bool_decide (labels !! i = Some z))
              (seq 0 (length labels)).

Definition euclidean (p q : point) : R :=
  sqrt (np_sum (np_square [psub p q])).

Definition class_matching (c1 c2 : coords) (idx1 idx2 : list nat)
  : list (nat * nat) :=
  let cost :=
    (λ i, (λ j, euclidean (default (0, 0, 0) (c1 !! i))
                          (default (0, 0, 0) (c2 !! j))) <$> idx2) <$> idx1 in
  let columns := linear_sum_assignment cost in
  zip idx1 ((λ k, default 0%nat (idx2 !! k)) <$> columns).

(** Modelled from the spec: [hungarian.hungarian_rmsd] is missing from the
    sources.  "Partition atom indices of both structures by atomic number;
    atom-count per atomic number must match exactly between the two
    structures (fail with LabelCountMismatch otherwise).  Within each
    atomic-number class, build the pairwise Euclidean-distance cost matrix
    and solve the linear assignment problem independently per class.
    Concatenate the resulting per-class correspondences into one full
    permutation; compute the final RMSD from the matched coordinate pairs
    (dummy formula)." *)
Definition hungarian_rmsd (c1 c2 : coords) (labels1 labels2 : list Z)
  : result R :=
  let classes := remove_dups (labels1 ++ labels2) in
  if forallb (λ z, (length (class_indices z labels1)
                    =? length (class_indices z labels2))%nat) classes
  then
    let matching :=
      concat ((λ z, class_matching c1 c2 (class_indices z labels1)
                                         (class_indices z labels2))
              <$> classes) in
    a1 ←? take_rows c1 (matching.*1);
    a2 ←? take_rows c2 (matching.*2);
    Ok (sqrt (np_sum (np_square (np_sub a1 a2)) / INR (length labels1)))
  else Raise LabelCountMismatch.

Definition rmsd_hungarian (mol1 mol2 : Molecule) (center : bool) : M R :=
  assert (same_shape (atomicnums mol1) (atomicnums mol2)) ;;
  a1 <- read (coordinates mol1) ;;
  a2 <- read (coordinates mol2) ;;
  assert (same_shape a1 a2) ;;
  let c1 := coordinates mol1 in
  let c2 := coordinates mol2 in
  (if center then
     cog1 <- center_of_geometry mol1 ;;
     isub c1 cog1 ;;
     cog2 <- center_of_geometry mol2 ;;
     isub c2 cog2
   else ret ()) ;;
  a1 <- read c1 ;;
  a2 <- read c2 ;;
  lift (hungarian_rmsd a1 a2 (atomicnums mol1) (atomicnums mol2)).

End hungarian.

(** ** Vocabulary of the statements *)

(** The squared Euclidean distance between two points, and the mean of it
    over the atoms [0 .. N-1] of two coordinate sets. *)
Definition sq_dist (p q : point) : R :=
  (p.1.1 - q.1.1) * (p.1.1 - q.1.1) + (p.1.2 - q.1.2) * (p.1.2 - q.1.2)
  + (p.2 - q.2) * (p.2 - q.2).

Definition atom (a : coords) (i : nat) : point := default (0, 0, 0) (a !! i).

Definition sum_sq_dist (N : nat) (a b : coords) : R :=
  foldr Rplus 0 ((λ i, sq_dist (atom a i) (atom b i)) <$> seq 0 N).

(** The sum of the squared distances between the atoms that a mapping
    matches. *)
Definition matched_sq_dist (a1 a2 : coords) (m : list (nat * nat)) : R :=
  foldr (λ p acc, sq_dist (atom a1 p.1) (atom a2 p.2) + acc) 0 m.

(** The candidate RMSD of one mapping: both coordinate sets are permuted
    by the mapping (keys for the first, values for the second) and the
    dummy formula is applied. *)
Definition candidate_rmsd (a1 a2 : coords) (n : nat) (ks vs : list nat)
  : result R :=
  c1 ←? take_rows a1 ks;
  c2 ←? take_rows a2 vs;
  Ok (sqrt (np_sum (np_square (np_sub c1 c2)) / INR n)).

(** [v] is the minimum of the candidate RMSDs over a collection of
    mappings. *)
Definition minimum_candidate (a1 a2 : coords) (n : nat)
    (all : list (list nat * list nat)) (v : R) : Prop :=
  (∃ kv, kv ∈ all ∧ candidate_rmsd a1 a2 n kv.1 kv.2 = Ok v) ∧
  (∀ kv x, kv ∈ all → candidate_rmsd a1 a2 n kv.1 kv.2 = Ok x → v <= x).

(** The number of atoms with atomic number [z]. *)
Definition population (z : Z) (labels : list Z) : nat :=
  length (List.filter (Z.eqb z) labels).

(** The heap after the centering step of [rmsd_dummy], [rmsd_hungarian]
    and [rmsd_isomorphic]. *)
Definition centered (mol1 mol2 : Molecule) (center : bool) (h : heap) : heap :=
  if center then
    let h1 := <[coordinates mol1 :=
                  np_sub_row (h (coordinates mol1))
                             (centroid (h (coordinates mol1)))]> h in
    <[coordinates mol2 :=
        np_sub_row (h1 (coordinates mol2))
                   (centroid (h1 (coordinates mol2)))]> h1
  else h.

(** Relabelling the atoms of a molecule by [π]: atom [i] of the result is
    atom [π i] of the original, in the coordinates, the atomic numbers and
    the graph alike. *)
Definition permute {A : Type} (π : list nat) (l : list A) : list A :=
  omap (λ i, l !! i) π.

Definition relabel_graph (π : list nat) (G : nx.Graph) : nx.Graph :=
  let old i := default 0%nat (π !! i) in
  let n := length π in
  {| nx.nodes := map_seq 0 ((λ i, nx.attrs G (old i)) <$> seq 0 n);
     nx.adj := map_seq 0
       ((λ i, list_to_set
                (List.filter (λ j, nx.has_edge G (old i) (old j)) (seq 0 n)))
        <$> seq 0 n) |}.

Definition relabel (π : list nat) (mol : Molecule) (h : heap)
  : Molecule * heap :=
  ({| atomicnums := permute π (atomicnums mol);
      coordinates := coordinates mol;
      graph := relabel_graph π (graph mol) |},
   <[coordinates mol := permute π (h (coordinates mol))]> h).

(** A mapping followed by [π] on the side of the second graph. *)
Definition via (π : list nat) (v : nat) : nat := default 0%nat (π !! v).

Definition compose (π : list nat) (m : list (nat * nat)) : list (nat * nat) :=
  (λ p, (p.1, via π p.2)) <$> m.

(** [π] is an automorphism of [G]: a permutation of its vertices under
    which the relabelled graph is [G] itself. *)
Definition automorphism (π : list nat) (G : nx.Graph) : Prop :=
  π ≡ₚ seq 0 (length π) ∧ relabel_graph π G = G.

(** ** Examples *)

(** Two dihydrogen molecules: their atoms lie at the same two places and
    are numbered in opposite orders in [heapAB], in the same order in
    [heapAA]. *)
Definition molA : Molecule :=
  {| atomicnums := [1; 1]%Z; coordinates := 0%nat; graph := nx.H2 |}.

Definition molB : Molecule :=
  {| atomicnums := [1; 1]%Z; coordinates := 1%nat; graph := nx.H2 |}.

Definition heapAB : heap := λ l,
  match l with
  | 0%nat => [(0, 0, 0); (1, 0, 0)]
  | 1%nat => [(1, 0, 0); (0, 0, 0)]
  | _ => []
  end.

Definition heapAA : heap := λ l,
  match l with
  | 0%nat => [(0, 0, 0); (1, 0, 0)]
  | 1%nat => [(0, 0, 0); (1, 0, 0)]
  | _ => []
  end.

(** A graph matcher in the manner of [pyrmsd.graph.match_graphs]: the
    first isomorphism that the matcher enumerates, as a dictionary. *)
Definition first_isomorphism (G1 G2 : nx.Graph) : result (list (nat * nat)) :=
  all ←? (nx.match_graphs G1 G2).2;
  match all with
  | (ks, vs) :: _ => Ok (zip ks vs)
  | [] => Raise ValueError
  end.

(** A single hydrogen atom, dihydrogen, and hydroxyl. *)
Definition molH : Molecule :=
  {| atomicnums := [1]%Z; coordinates := 0%nat; graph := nx.one_vertex |}.

Definition molHH : Molecule :=
  {| atomicnums := [1; 1]%Z; coordinates := 1%nat; graph := nx.H2 |}.

(** Three hydrogen atoms, of which only the atomic numbers matter. *)
Definition molHHH : Molecule :=
  {| atomicnums := [1; 1; 1]%Z; coordinates := 2%nat; graph := nx.H2 |}.

Definition molOH : Molecule :=
  {| atomicnums := [1; 8]%Z; coordinates := 0%nat; graph := nx.OH |}.

Definition heapH : heap := λ l,
  match l with
  | 0%nat => [(0, 0, 0)]
  | 1%nat => [(0, 0, 0); (1, 0, 0)]
  | _ => []
  end.

Definition identity_assignment (cost : list (list R)) : list nat :=
  seq 0 (length cost).

(** ** Rigid translations and centred arrays *)

(** The array [a + v] for a row vector [v], and the array that the
    centering step leaves behind a reference to [a]. *)
Definition padd (p q : point) : point :=
  (p.1.1 + q.1.1, p.1.2 + q.1.2, p.2 + q.2).

Definition translate (a : coords) (v : point) : coords :=
  (λ p, padd p v) <$> a.

Definition centre (a : coords) : coords := np_sub_row a (centroid a).

(** The dictionary [{0: 0, ..., n-1: n-1}]. *)
Definition identity_mapping (n : nat) : list (nat * nat) :=
  (λ i, (i, i)) <$> seq 0 n.

(** A stand-in for [qcp.qcp_rmsd], and a matcher that answers with the
    identity on two atoms. *)
Definition constant_qcp (c1 c2 : coords) : result R := Ok 0.

Definition identity_on_two (G1 G2 : nx.Graph) : result (list (nat * nat)) :=
  Ok (identity_mapping 2).

End rmsd.

(** * The batch wrapper

    [spyrmsd.parallel.prmsdwrapper] is missing from the sources (only its
    tests are at hand); this module follows the specification of the
    Batch Parallel Wrapper.  Time is abstract: of a computation the pool
    only sees whether it ends within the timeout. *)

Module parallel.

(** Modelled from the spec: the result type of the missing
    [prmsdwrapper]; "a non-negative real number, or an unavailable
    sentinel (distinct from 0 and from any valid RMSD)". *)
Inductive RMSDResult :=
  | Value (r : R)
  | Unavailable.

(** Modelled from the spec: the pairwise computations that the missing
    [prmsdwrapper] runs are "pure functions of immutable inputs"; left to
    run, the computation of one pair returns [v] after [t] time units,
    fails after [t] time units ("worker crash/unexpected failure"), or
    never ends ("a stalled pairwise computation"). *)
Inductive Behaviour :=
  | Finishes (t : nat) (v : R)
  | Crashes (t : nat)
  | Hangs.

(** Modelled from the spec: the options of the missing [prmsdwrapper]
    that the pool itself reads, "timeout: duration|none, num_workers:
    int". *)
Record Config := mkConfig {
  timeout : option nat;
  num_workers : nat
}.

(** Modelled from the spec: the states of a job of the missing
    [prmsdwrapper], "Pending → Running → {Completed(value) | TimedOut |
    Failed}". *)
Inductive JobState :=
  | Pending
  | Running
  | Completed (v : R)
  | TimedOut
  | Failed.

Definition within_budget (cfg : Config) (t : nat) : bool :=
  match timeout cfg with
  | None => true
  | Some T => t <=? T
  end.

(** The computation "exceeds the per-pair timeout" [T]. *)
Definition exceeds (T : nat) (b : Behaviour) : bool :=
  match b with
  | Finishes t _ | Crashes t => T <? t
  | Hangs => true
  end.

Definition is_running (s : JobState) : bool :=
  match s with Running => true | _ => false end.

Definition is_final (s : JobState) : bool :=
  match s with Completed _ | TimedOut | Failed => true | _ => false end.

Definition running (slots : list JobState) : nat :=
  length (List.filter is_running slots).

(** Modelled from the spec: one move of the worker pool of the missing
    [prmsdwrapper] on the slot array.  A free worker takes a pending job
    ("a fixed-size worker pool"); a running job ends with its value, with
    its failure, or "on timeout the corresponding result slot is set to
    the unavailable sentinel and the worker is freed for the next job".
    Each move writes "directly into the pre-indexed slot corresponding to
    [the] job", and the moves of different jobs interleave in any
    order. *)
Inductive step (cfg : Config) (jobs : list Behaviour)
  : list JobState → list JobState → Prop :=
  | step_dispatch i slots :
      slots !! i = Some Pending →
      running slots < num_workers cfg →
      step cfg jobs slots (<[i := Running]> slots)
  | step_complete i slots t v :
      slots !! i = Some Running →
      jobs !! i = Some (Finishes t v) →
      within_budget cfg t = true →
      step cfg jobs slots (<[i := Completed v]> slots)
  | step_fail i slots t :
      slots !! i = Some Running →
      jobs !! i = Some (Crashes t) →
      within_budget cfg t = true →
      step cfg jobs slots (<[i := Failed]> slots)
  | step_timeout i slots T b :
      slots !! i = Some Running →
      jobs !! i = Some b →
      timeout cfg = Some T →
      exceeds T b = true →
      step cfg jobs slots (<[i := TimedOut]> slots).

(** Modelled from the spec: what a slot of the missing [prmsdwrapper]
    shows to the caller; "TimedOut and Failed both surface as the
    sentinel; only Completed carries a numeric value". *)
Definition surface (s : JobState) : RMSDResult :=
  match s with
  | Completed v => Value v
  | _ => Unavailable
  end.

(** Modelled from the spec: a call of the missing [prmsdwrapper] returns
    [results] when some interleaving of the moves leads from the
    all-pending slot array to one where every job is over; the results
    are read off the slots in order. *)
Definition returns (cfg : Config) (jobs : list Behaviour)
    (results : list RMSDResult) : Prop :=
  ∃ slots, rtc (step cfg jobs) (replicate (length jobs) Pending) slots ∧
           forallb is_final slots = true ∧
           results = surface <$> slots.

(** The result of one pair taken alone. *)
Definition outcome (cfg : Config) (b : Behaviour) : RMSDResult :=
  match b with
  | Finishes t v => if within_budget cfg t then Value v else Unavailable
  | Crashes _ => Unavailable
  | Hangs => Unavailable
  end.

(** A computation that never ends, under a configuration without timeout,
    keeps its worker for ever. *)
Definition stalls (cfg : Config) (b : Behaviour) : Prop :=
  timeout cfg = None ∧ b = Hangs.

(** A slot is consistent with what the computation of its pair does. *)
Definition consistent (cfg : Config) (b : Behaviour) (s : JobState) : Prop :=
  match s with
  | Pending | Running => True
  | Completed v => ∃ t, b = Finishes t v ∧ within_budget cfg t = true
  | Failed => ∃ t, b = Crashes t ∧ within_budget cfg t = true
  | TimedOut => ∃ T, timeout cfg = Some T ∧ exceeds T b = true
  end.

(** The moves left to a slot array, at most. *)
Definition weight (s : JobState) : nat :=
  match s with
  | Pending => 2
  | Running => 1
  | _ => 0
  end.

Definition measure (slots : list JobState) : nat :=
  foldr (λ s acc, weight s + acc) 0 slots.

End parallel.

(** * Properties of spyrmsd/graphs/nx.py *)

Module nx_theory.
Import nx.

(** ** Labels, nodes and candidate mappings *)

Lemma get_node_attributes_empty (G : Graph) :
  get_node_attributes G "atomicnum" = ∅ ↔ unlabelled G.
Proof.
  unfold get_node_attributes, unlabelled. rewrite map_empty. split.
  - intros H v d Hv. specialize (H v). by rewrite lookup_omap, Hv in H.
  - intros H v. rewrite lookup_omap.
    destruct (nodes G !! v) as [d|] eqn:E; simpl; [by eapply H | done].
Qed.

Lemma elem_of_node_list (G : Graph) (u : nat) :
  u ∈ node_list G ↔ is_Some (nodes G !! u).
Proof. unfold node_list. by rewrite elem_of_elements, elem_of_dom. Qed.

Lemma NoDup_node_list (G : Graph) : NoDup (node_list G).
Proof. unfold node_list. apply NoDup_elements. Qed.

Lemma elem_of_candidates (G1 G2 : Graph) (m : mapping) :
  m ∈ candidates G1 G2 ↔ m.*1 = node_list G1 ∧ m.*2 ≡ₚ node_list G2.
Proof.
  unfold candidates. split.
  - destruct (_ =? _) eqn:Hn; [|by intros ?%elem_of_nil].
    apply Nat.eqb_eq in Hn.
    intros (vs & -> & Hvs)%list_elem_of_fmap.
    apply permutations_Permutation in Hvs.
    assert (length vs = length (node_list G2)) as Hlen
      by (by rewrite Hvs).
    rewrite fst_zip, snd_zip by lia. by split.
  - intros [H1 H2].
    assert (length (node_list G1) = length (node_list G2)) as Hlen.
    { rewrite <- H1, <- H2. by rewrite !length_fmap. }
    apply Nat.eqb_eq in Hlen as ->.
    apply list_elem_of_fmap. exists (m.*2). split.
    + by rewrite <- H1, zip_fst_snd.
    + by apply permutations_Permutation.
Qed.

(** ** The two feasibility checks and the enumeration *)

Lemma syntactic_feasibility_spec (G1 G2 : Graph) (m : mapping) :
  syntactic_feasibility G1 G2 m = true ↔
  ∀ p q, p ∈ m → q ∈ m → has_edge G1 p.1 q.1 = has_edge G2 p.2 q.2.
Proof.
  unfold syntactic_feasibility. rewrite List.forallb_forall. split.
  - intros H p q Hp Hq. apply list_elem_of_In in Hp, Hq.
    specialize (H p Hp). rewrite List.forallb_forall in H.
    specialize (H q Hq). by apply bool_decide_eq_true in H.
  - intros H p Hp. rewrite List.forallb_forall. intros q Hq.
    apply bool_decide_eq_true. apply H; by apply list_elem_of_In.
Qed.

Lemma semantic_feasibility_labelled (G1 G2 : Graph) (m : mapping) :
  (∀ p, p ∈ m → is_Some (attrs G1 p.1 !! "atomicnum")
               ∧ is_Some (attrs G2 p.2 !! "atomicnum")) →
  ∃ b, semantic_feasibility match_atomicnum G1 G2 m = Ok b ∧
       (b = true ↔ ∀ p, p ∈ m → same_atomicnum (attrs G1 p.1) (attrs G2 p.2)).
Proof.
  induction m as [|[u v] m IH]; intros Hlab.
  - exists true. split; [done|]. split; [|done]. by intros _ p ?%elem_of_nil.
  - destruct (Hlab (u, v)) as [[z1 Hz1] [z2 Hz2]]; [left|]. simpl in Hz1, Hz2.
    destruct IH as (b & Hb & Hspec).
    { intros p Hp. apply Hlab. by right. }
    simpl. unfold match_atomicnum, getitem. rewrite Hz1, Hz2. simpl.
    destruct (Z.eqb_spec z1 z2) as [->|Hne].
    + exists b. split; [done|]. rewrite Hspec. split.
      * intros H p [->|Hp]%elem_of_cons; [by exists z2 | by apply H].
      * intros H p Hp. apply H. by right.
    + exists false. split; [done|]. split; [done|].
      intros H. destruct (H (u, v)) as (z & Ha & Hb'); [left|].
      simpl in *. congruence.
Qed.

Section select.
Context (node_match : option (gmap string Z → gmap string Z → result bool)).
Context (compat : gmap string Z → gmap string Z → Prop).
Context (G1 G2 : Graph).

Lemma select_spec (cands : list mapping) :
  (∀ m, m ∈ cands → evaluates node_match compat G1 G2 m) →
  ∃ l, select node_match G1 G2 cands = Ok l ∧
       ∀ m, m ∈ l ↔ m ∈ cands ∧
                    ∀ p, p ∈ m → compat (attrs G1 p.1) (attrs G2 p.2).
Proof.
  induction cands as [|c cands IH]; intros Hev.
  - exists []. split; [done|]. intros m. split; [by intros ?%elem_of_nil|].
    by intros [?%elem_of_nil _].
  - destruct (Hev c) as (b & Hb & Hspec); [left|].
    destruct IH as (l & Hl & Hin). { intros m Hm. apply Hev. by right. }
    simpl. rewrite Hb. simpl. rewrite Hl. simpl.
    eexists. split; [done|]. intros m. destruct b.
    + rewrite !elem_of_cons, Hin. split.
      * intros [->|[? ?]]; [split; [by left|by apply Hspec] | split; [by right|done]].
      * intros [[->|?] ?]; [by left | by right].
    + rewrite Hin, elem_of_cons. split; [intros [? ?]; split; [by right|done]|].
      intros [[->|?] Hc]; [|done]. apply Hspec in Hc. done.
Qed.

Lemma isomorphisms_iter_spec :
  (∀ m, m ∈ candidates G1 G2 → evaluates node_match compat G1 G2 m) →
  ∃ l, isomorphisms_iter node_match G1 G2 = Ok l ∧
       ∀ m, m ∈ l ↔ m.*1 = node_list G1 ∧ is_isomorphism compat G1 G2 m.
Proof.
  intros Hev. unfold isomorphisms_iter.
  destruct (select_spec (List.filter (syntactic_feasibility G1 G2)
                                     (candidates G1 G2))) as (l & Hl & Hin).
  { intros m Hm. apply Hev. apply list_elem_of_In, filter_In in Hm as [Hm _].
    by apply list_elem_of_In. }
  exists l. split; [done|]. intros m. rewrite Hin.
  rewrite list_elem_of_In, filter_In, <- list_elem_of_In.
  rewrite elem_of_candidates, syntactic_feasibility_spec.
  unfold is_isomorphism. split.
  - intros [[[H1 H2] H3] H4]. by rewrite H1 at 2.
  - intros [H1 (_ & H2 & H3 & H4)]. done.
Qed.
End select.

(** ** Isomorphisms as dictionaries: the order of the items *)

Lemma is_isomorphism_Permutation compat (G1 G2 : Graph) (m m' : mapping) :
  m ≡ₚ m' → is_isomorphism compat G1 G2 m → is_isomorphism compat G1 G2 m'.
Proof.
  intros Hp (H1 & H2 & H3 & H4). repeat split.
  - by rewrite <- Hp.
  - by rewrite <- Hp.
  - intros p q Hp' Hq. apply H3; by rewrite Hp.
  - intros p Hp'. apply H4. by rewrite Hp.
Qed.

Lemma is_isomorphism_reorder compat (G1 G2 : Graph) (m : mapping) :
  is_isomorphism compat G1 G2 m →
  ∃ m', m' ≡ₚ m ∧ m'.*1 = node_list G1 ∧ is_isomorphism compat G1 G2 m'.
Proof.
  intros Hiso. pose proof Hiso as (H1 & _).
  symmetry in H1. apply Permutation_map_inv in H1 as (m' & Heq & Hp).
  exists m'. split; [done|]. split; [done|].
  by eapply is_isomorphism_Permutation.
Qed.

(** ** [match_graphs]

    The node-matching function that [match_graphs] chooses evaluates on
    every candidate of a labelled pair, to the applicable predicate. *)
Lemma candidate_nodes (G1 G2 : Graph) (m : mapping) p :
  m ∈ candidates G1 G2 → p ∈ m →
  is_Some (nodes G1 !! p.1) ∧ is_Some (nodes G2 !! p.2).
Proof.
  intros [H1 H2]%elem_of_candidates Hp. split.
  - apply elem_of_node_list. rewrite <- H1. by apply list_elem_of_fmap_2.
  - apply elem_of_node_list. rewrite <- H2. by apply list_elem_of_fmap_2.
Qed.

Lemma fully_labelled_attrs (G : Graph) (u : nat) :
  fully_labelled G → is_Some (nodes G !! u) →
  is_Some (attrs G u !! "atomicnum").
Proof.
  intros HG [d Hd]. unfold attrs. rewrite Hd. simpl. by eapply HG.
Qed.

Lemma chosen_node_match_unlabelled (G1 G2 : Graph) :
  unlabelled G1 ∨ unlabelled G2 → chosen_node_match G1 G2 = None.
Proof.
  intros H. unfold chosen_node_match.
  rewrite <- !get_node_attributes_empty in H.
  destruct H as [H|H]; rewrite (bool_decide_eq_true_2 _ H); [done|].
  by rewrite orb_true_r.
Qed.

Lemma chosen_node_match_labelled (G1 G2 : Graph) :
  ¬ (unlabelled G1 ∨ unlabelled G2) →
  chosen_node_match G1 G2 = Some match_atomicnum.
Proof.
  intros H. unfold chosen_node_match.
  rewrite <- !get_node_attributes_empty in H.
  rewrite !bool_decide_eq_false_2; [done|tauto|tauto].
Qed.

Lemma chosen_node_match_evaluates (G1 G2 : Graph) (m : mapping) :
  labelled_pair G1 G2 → m ∈ candidates G1 G2 →
  evaluates (chosen_node_match G1 G2) (applicable G1 G2) G1 G2 m.
Proof.
  intros Hlab Hm. unfold evaluates, applicable.
  destruct (decide (unlabelled G1 ∨ unlabelled G2)) as [Hu|Hu].
  - rewrite chosen_node_match_unlabelled by done.
    exists true. by split.
  - rewrite chosen_node_match_labelled by done.
    destruct Hlab as [?|[HG1 HG2]]; [done|].
    apply semantic_feasibility_labelled. intros p Hp.
    destruct (candidate_nodes G1 G2 m p Hm Hp).
    split; by apply fully_labelled_attrs.
Qed.

Lemma match_graphs_unfold (G1 G2 : Graph) :
  match_graphs G1 G2 =
  (match chosen_node_match G1 G2 with
   | Some _ => []
   | None => [no_atomicnum_warning]
   end,
   iso ←? is_isomorphic (chosen_node_match G1 G2) G1 G2;
   if negb iso then Raise ValueError
   else
     l ←? isomorphisms_iter (chosen_node_match G1 G2) G1 G2;
     Ok ((λ isomorphism : mapping, (isomorphism.*1, isomorphism.*2)) <$> l)).
Proof.
  unfold match_graphs, chosen_node_match. by destruct (_ || _).
Qed.

(** The value of [match_graphs] on a labelled pair. *)
Lemma match_graphs_result (G1 G2 : Graph) :
  labelled_pair G1 G2 →
  ∃ l, (∀ m, m ∈ l ↔ m.*1 = node_list G1
                      ∧ is_isomorphism (applicable G1 G2) G1 G2 m) ∧
       (match_graphs G1 G2).2 =
         if bool_decide (l = []) then Raise ValueError
         else Ok ((λ isomorphism : mapping,
                     (isomorphism.*1, isomorphism.*2)) <$> l).
Proof.
  intros Hlab.
  destruct (isomorphisms_iter_spec (chosen_node_match G1 G2)
              (applicable G1 G2) G1 G2) as (l & Hl & Hin).
  { intros m Hm. by apply chosen_node_match_evaluates. }
  exists l. split; [done|].
  rewrite match_graphs_unfold. simpl. unfold is_isomorphic.
  rewrite Hl. simpl. by destruct (bool_decide (l = [])).
Qed.

Lemma isomorphic_iff_listed compat (G1 G2 : Graph) (l : list mapping) :
  (∀ m, m ∈ l ↔ m.*1 = node_list G1 ∧ is_isomorphism compat G1 G2 m) →
  isomorphic compat G1 G2 ↔ l ≠ [].
Proof.
  intros Hin. split.
  - intros [m Hm]. apply is_isomorphism_reorder in Hm as (m' & _ & H1 & H2).
    assert (m' ∈ l) as Hm' by by apply Hin.
    intros ->. by apply elem_of_nil in Hm'.
  - destruct l as [|m l']; [done|]. intros _. exists m.
    apply Hin. by left.
Qed.

Lemma listed_pairs compat (G1 G2 : Graph) (l : list mapping) (m : mapping) :
  (∀ m, m ∈ l ↔ m.*1 = node_list G1 ∧ is_isomorphism compat G1 G2 m) →
  is_isomorphism compat G1 G2 m ↔
  ∃ ks vs, (ks, vs) ∈ (λ isomorphism : mapping,
                         (isomorphism.*1, isomorphism.*2)) <$> l
           ∧ length ks = length vs ∧ zip ks vs ≡ₚ m.
Proof.
  intros Hin. split.
  - intros (m' & Hp & H1 & H2)%is_isomorphism_reorder.
    exists (m'.*1), (m'.*2). split; [|split].
    + apply list_elem_of_fmap. exists m'. split; [done|]. by apply Hin.
    + by rewrite !length_fmap.
    + by rewrite zip_fst_snd.
  - intros (ks & vs & (m' & Heq & Hm')%list_elem_of_fmap & _ & Hp).
    injection Heq as -> ->. rewrite zip_fst_snd in Hp.
    apply Hin in Hm' as [_ Hm']. by eapply is_isomorphism_Permutation.
Qed.

Lemma H2_from_adjacency_matrix :
  graph_from_adjacency_matrix [[0; 1]; [1; 0]]%Z (Some [1; 1]%Z) = Ok H2.
Proof. by vm_compute. Qed.

Lemma H2_fully_labelled : fully_labelled H2.
Proof. unfold fully_labelled. apply (bool_decide_unpack _). by vm_compute. Qed.

Lemma match_graphs_lists_isomorphism (G1 G2 : Graph)
    (all : list (list nat * list nat)) (m : mapping) :
  labelled_pair G1 G2 →
  (match_graphs G1 G2).2 = Ok all →
  is_isomorphism (applicable G1 G2) G1 G2 m →
  ∃ ks vs, (ks, vs) ∈ all ∧ length ks = length vs ∧ zip ks vs ≡ₚ m.
Proof.
  intros Hlab Hall Hm.
  destruct (match_graphs_result G1 G2 Hlab) as (l & Hin & Hres).
  rewrite Hall in Hres. case_bool_decide; [done|]. injection Hres as ->.
  by apply (listed_pairs _ _ _ _ _ Hin).
Qed.

(** C5: on a pair of labelled graphs (each vertex of both graphs carries an
    atomic number, or one of the graphs carries none and matching is
    structural), [match_graphs] raises an error if and only if the graphs
    are not isomorphic under the applicable node-compatibility predicate;
    when they are isomorphic it returns the collection of all isomorphism
    mappings, each as a pair of index sequences (the keys and the values
    of the mapping, aligned). *)
Theorem match_graphs_raises_iff_not_isomorphic (G1 G2 : Graph) :
  labelled_pair G1 G2 →
  (raises (match_graphs G1 G2).2 ↔ ¬ isomorphic (applicable G1 G2) G1 G2) ∧
  (isomorphic (applicable G1 G2) G1 G2 →
   ∃ l, (match_graphs G1 G2).2 = Ok l ∧
        ∀ m, is_isomorphism (applicable G1 G2) G1 G2 m ↔
             ∃ ks vs, (ks, vs) ∈ l ∧ length ks = length vs ∧ zip ks vs ≡ₚ m).
Proof.
  intros Hlab. destruct (match_graphs_result G1 G2 Hlab) as (l & Hin & ->).
  pose proof (isomorphic_iff_listed _ _ _ _ Hin) as Hiso.
  split.
  - rewrite Hiso. case_bool_decide as Hl.
    + split; [by intros _ ?|]. intros _. by exists ValueError.
    + split; [by intros [e ?]|]. intros H. by destruct H.
  - intros Hl%Hiso. rewrite bool_decide_eq_false_2 by done.
    eexists. split; [done|]. intros m. by apply listed_pairs.
Qed.

Lemma match_graphs_raises_iff_not_isomorphic_witness :
  labelled_pair H2 H2 ∧
  (raises (match_graphs H2 H2).2 ↔ ¬ isomorphic (applicable H2 H2) H2 H2) ∧
  (isomorphic (applicable H2 H2) H2 H2 →
   ∃ l, (match_graphs H2 H2).2 = Ok l ∧
        ∀ m, is_isomorphism (applicable H2 H2) H2 H2 m ↔
             ∃ ks vs, (ks, vs) ∈ l ∧ length ks = length vs ∧ zip ks vs ≡ₚ m).
Proof.
  assert (labelled_pair H2 H2) as Hlab.
  { right. split; apply H2_fully_labelled. }
  split; [exact Hlab|].
  exact (match_graphs_raises_iff_not_isomorphic H2 H2 Hlab).
Defined.

Lemma applicable_unlabelled (G1 G2 : Graph) :
  unlabelled G1 ∨ unlabelled G2 → applicable G1 G2 = structure_only.
Proof. intros H. unfold applicable. by rewrite decide_True. Qed.

Lemma match_graphs_warns (G1 G2 : Graph) :
  unlabelled G1 ∨ unlabelled G2 →
  (match_graphs G1 G2).1 = [no_atomicnum_warning].
Proof.
  intros H. rewrite match_graphs_unfold.
  by rewrite chosen_node_match_unlabelled.
Qed.

(** C9: when at least one of the two graphs has no atomic-number label on
    any vertex, [match_graphs] does not fail on that account: it informs
    the caller with a warning, not an error, and degrades to
    structure-only isomorphism, with no check of the vertex labels.  It
    returns all the structure-only isomorphisms when there is one; the
    one error left is the [ValueError] of two graphs that are not
    isomorphic in structure, which labels would not have prevented. *)
Theorem match_graphs_unlabelled_structure_only (G1 G2 : Graph) :
  unlabelled G1 ∨ unlabelled G2 →
  (match_graphs G1 G2).1 = [no_atomicnum_warning] ∧
  (∀ e, (match_graphs G1 G2).2 = Raise e →
        e = ValueError ∧ ¬ isomorphic structure_only G1 G2) ∧
  (isomorphic structure_only G1 G2 →
   ∃ l, (match_graphs G1 G2).2 = Ok l ∧
        ∀ m, is_isomorphism structure_only G1 G2 m ↔
             ∃ ks vs, (ks, vs) ∈ l ∧ length ks = length vs ∧ zip ks vs ≡ₚ m).
Proof.
  intros Hu. split; [by apply match_graphs_warns|].
  destruct (match_graphs_result G1 G2) as (l & Hin & ->); [by left|].
  rewrite applicable_unlabelled in Hin by done.
  pose proof (isomorphic_iff_listed _ _ _ _ Hin) as Hiso.
  split.
  - intros e. case_bool_decide as Hl; [|done].
    intros [= <-]. split; [done|]. rewrite Hiso. by intros ?.
  - intros Hl%Hiso. rewrite bool_decide_eq_false_2 by done.
    eexists. split; [done|]. intros m. by apply listed_pairs.
Qed.

(** The error that is left: two unlabelled graphs with one and two
    vertices are warned about and then rejected with [ValueError], as two
    graphs that are not isomorphic in structure. *)
Lemma match_graphs_unlabelled_can_fail :
  graph_from_adjacency_matrix [[0]]%Z None = Ok one_vertex ∧
  graph_from_adjacency_matrix [[0; 0]; [0; 0]]%Z None = Ok two_vertices ∧
  get_node_attributes one_vertex "atomicnum" = ∅ ∧
  get_node_attributes two_vertices "atomicnum" = ∅ ∧
  match_graphs one_vertex two_vertices
    = ([no_atomicnum_warning], Raise ValueError).
Proof. repeat split; by vm_compute. Qed.

(** Dihydrogen with its labels against the same structure without labels:
    the two graphs are isomorphic in structure. *)
Lemma H2_two_bonded_isomorphic : isomorphic structure_only H2 two_bonded.
Proof.
  assert (node_list H2 = [1; 0]) as Hn by (by vm_compute).
  assert (node_list two_bonded = [1; 0]) as Hn' by (by vm_compute).
  exists [(1, 1); (0, 0)]. unfold is_isomorphism. rewrite Hn, Hn'.
  repeat split; try done.
  intros p q Hp Hq. set_unfold.
  destruct Hp as [->|[->|[]]], Hq as [->|[->|[]]]; by vm_compute.
Qed.

Lemma match_graphs_unlabelled_structure_only_witness :
  (unlabelled H2 ∨ unlabelled two_bonded) ∧
  isomorphic structure_only H2 two_bonded ∧
  (match_graphs H2 two_bonded).1 = [no_atomicnum_warning] ∧
  ∃ l, (match_graphs H2 two_bonded).2 = Ok l ∧
       ∀ m, is_isomorphism structure_only H2 two_bonded m ↔
            ∃ ks vs, (ks, vs) ∈ l ∧ length ks = length vs ∧ zip ks vs ≡ₚ m.
Proof.
  assert (unlabelled H2 ∨ unlabelled two_bonded) as Hu.
  { right. apply get_node_attributes_empty. vm_compute. reflexivity. }
  split; [exact Hu|]. split; [exact H2_two_bonded_isomorphic|]. split.
  - exact (proj1 (match_graphs_unlabelled_structure_only H2 two_bonded Hu)).
  - exact (proj2 (proj2 (match_graphs_unlabelled_structure_only H2 two_bonded
                           Hu)) H2_two_bonded_isomorphic).
Defined.

(** ** [graph_from_adjacency_matrix] *)

Lemma Graph_of_array_square (A : list (list Z)) :
  square A →
  ∃ G, Graph_of_array A = Ok G ∧
       ∀ i, nodes G !! i = if decide (i < length A) then Some ∅ else None.
Proof.
  intros Hsq. unfold Graph_of_array.
  assert (forallb (λ row, length row =? length A) A = true) as ->.
  { apply List.forallb_forall. intros row Hrow.
    apply Nat.eqb_eq. unfold square in Hsq. rewrite List.Forall_forall in Hsq.
    by apply Hsq. }
  eexists. split; [done|]. intros i. simpl.
  rewrite lookup_map_seq_0. case_decide as Hi.
  - by apply lookup_replicate_2.
  - apply lookup_replicate_None. lia.
Qed.

Lemma Graph_of_array_not_square (A : list (list Z)) :
  ¬ square A → Graph_of_array A = Raise NetworkXError.
Proof.
  intros Hsq. unfold Graph_of_array.
  destruct (forallb _ A) eqn:Hf; [|done]. destruct Hsq.
  unfold square. rewrite List.Forall_forall. intros row Hrow.
  rewrite List.forallb_forall in Hf. by apply Nat.eqb_eq, Hf.
Qed.

Lemma vertex_property_set_node_attributes (G : Graph) values name i :
  vertex_property (set_node_attributes G values name) name i =
  match nodes G !! i with
  | None => Raise KeyError
  | Some d => match values !! i with
              | Some v => Ok v
              | None => match d !! name with
                        | Some v => Ok v
                        | None => Raise KeyError
                        end
              end
  end.
Proof.
  unfold vertex_property, set_node_attributes. simpl.
  rewrite map_lookup_imap. destruct (nodes G !! i) as [d|]; simpl; [|done].
  destruct (values !! i) as [v|]; [|done]. by rewrite lookup_insert_eq.
Qed.

(** C10 (amended): for every square adjacency matrix given as a
    two-dimensional numpy array of integers and every atomic-number
    sequence with at least one entry per row of the matrix,
    [graph_from_adjacency_matrix] returns a graph on the vertices
    [0 .. n-1] in which vertex [i] carries the attribute "atomicnum" equal
    to the i-th atomic number, for every vertex [i]; when the argument is
    omitted no vertex of the returned graph carries the attribute, and
    [match_graphs] on that graph takes its structure-only branch. *)
Theorem graph_from_adjacency_matrix_atomicnum (A : list (list Z))
    (atomicnums : list Z) :
  square A → length A ≤ length atomicnums →
  (∃ G, graph_from_adjacency_matrix A (Some atomicnums) = Ok G ∧
        (∀ i, is_Some (nodes G !! i) ↔ i < length A) ∧
        ∀ i, i < length A →
             ∃ z, atomicnums !! i = Some z ∧
                  vertex_property G "atomicnum" i = Ok z) ∧
  (∃ G, graph_from_adjacency_matrix A None = Ok G ∧
        (∀ i, is_Some (nodes G !! i) ↔ i < length A) ∧
        (∀ i, vertex_property G "atomicnum" i = Raise KeyError) ∧
        get_node_attributes G "atomicnum" = ∅ ∧
        ∀ G', (match_graphs G G').1 = [no_atomicnum_warning] ∧
              (match_graphs G' G).1 = [no_atomicnum_warning]).
Proof.
  intros Hsq Hlen. destruct (Graph_of_array_square A Hsq) as (G & HG & Hnodes).
  unfold graph_from_adjacency_matrix. rewrite HG. simpl.
  assert (∀ i, is_Some (nodes G !! i) ↔ i < length A) as Hdom.
  { intros i. rewrite Hnodes. case_decide; [by split; eauto|].
    split; [by intros [? ?]|done]. }
  split.
  - eexists. split; [done|]. split.
    + intros i. simpl. rewrite map_lookup_imap, <- Hdom.
      destruct (nodes G !! i); simpl; split; intros [? ?]; by eauto.
    + intros i Hi. destruct (lookup_lt_is_Some_2 atomicnums i) as [z Hz]; [lia|].
      exists z. split; [done|]. rewrite vertex_property_set_node_attributes.
      rewrite Hnodes, decide_True by done. by rewrite lookup_map_seq_0, Hz.
  - assert (get_node_attributes G "atomicnum" = ∅) as Hempty.
    { apply map_empty. intros i. unfold get_node_attributes.
      rewrite lookup_omap, Hnodes. by case_decide. }
    exists G. split; [done|]. split; [done|]. split; [|split; [done|]].
    + intros i. unfold vertex_property. rewrite Hnodes. by case_decide.
    + intros G'. unfold match_graphs. rewrite Hempty.
      by destruct (bool_decide (get_node_attributes G' _ = ∅)).
Qed.

(** C10, as stated, fails on an atomic-number sequence shorter than the
    matrix: vertex 1 is a vertex of the returned graph and carries no
    "atomicnum" (and matching such a graph ends in [KeyError]). *)
Lemma graph_from_adjacency_matrix_short_atomicnums :
  graph_from_adjacency_matrix [[0; 1]; [1; 0]]%Z (Some [6%Z])
    = Ok two_bonded_one_label ∧
  nodes two_bonded_one_label !! 1 = Some ∅ ∧
  vertex_property two_bonded_one_label "atomicnum" 1 = Raise KeyError ∧
  match_graphs two_bonded_one_label two_bonded_one_label
    = ([], Raise KeyError).
Proof. repeat split; by vm_compute. Qed.

Lemma graph_from_adjacency_matrix_atomicnum_witness :
  square [[0; 1]; [1; 0]]%Z ∧
  length [[0; 1]; [1; 0]]%Z ≤ length [1; 1]%Z ∧
  (∃ G, graph_from_adjacency_matrix [[0; 1]; [1; 0]]%Z (Some [1; 1]%Z) = Ok G ∧
        (∀ i, is_Some (nodes G !! i) ↔ i < length [[0; 1]; [1; 0]]%Z) ∧
        ∀ i, i < length [[0; 1]; [1; 0]]%Z →
             ∃ z, [1; 1]%Z !! i = Some z ∧
                  vertex_property G "atomicnum" i = Ok z) ∧
  (∃ G, graph_from_adjacency_matrix [[0; 1]; [1; 0]]%Z None = Ok G ∧
        (∀ i, is_Some (nodes G !! i) ↔ i < length [[0; 1]; [1; 0]]%Z) ∧
        (∀ i, vertex_property G "atomicnum" i = Raise KeyError) ∧
        get_node_attributes G "atomicnum" = ∅ ∧
        ∀ G', (match_graphs G G').1 = [no_atomicnum_warning] ∧
              (match_graphs G' G).1 = [no_atomicnum_warning]).
Proof.
  assert (square [[0; 1]; [1; 0]]%Z) as Hsq by (by repeat constructor).
  assert (length [[0; 1]; [1; 0]]%Z ≤ length [1; 1]%Z) as Hlen
    by (simpl; lia).
  split; [exact Hsq|]. split; [exact Hlen|].
  exact (graph_from_adjacency_matrix_atomicnum _ _ Hsq Hlen).
Defined.

End nx_theory.

(** * Properties of pyrmsd/rmsd.py *)

Module rmsd_theory.
Import rmsd.
Local Open Scope R_scope.

(** ** What the functions compute, step by step *)

Lemma centering_run (mol1 mol2 : Molecule) (center : bool) (h : heap) :
  (if center then
     bind (center_of_geometry mol1) (λ cog1,
     bind (isub (coordinates mol1) cog1) (λ _,
     bind (center_of_geometry mol2) (λ cog2,
     isub (coordinates mol2) cog2)))
   else ret ()) h = (Ok (), centered mol1 mol2 center h).
Proof. by destruct center. Qed.

Lemma np_all_eq_broadcastable (a b : list Z) :
  np_all_eq a b = true → broadcastable a b = true.
Proof.
  unfold np_all_eq, broadcastable.
  destruct (length a =? length b)%nat; [done|].
  destruct a as [|x [|x' a]], b as [|y [|y' b]]; done.
Qed.

Lemma rmsd_dummy_run (mol1 mol2 : Molecule) (center : bool) (h : heap) :
  rmsd_dummy mol1 mol2 center h =
  if np_all_eq (atomicnums mol1) (atomicnums mol2)
     && same_shape (h (coordinates mol1)) (h (coordinates mol2))
  then
    let h' := centered mol1 mol2 center h in
    (Ok (sqrt (np_sum (np_square (np_sub (h' (coordinates mol1))
                                         (h' (coordinates mol2))))
               / INR (len mol1))), h')
  else (Raise (comparison_error (atomicnums mol1) (atomicnums mol2)), h).
Proof.
  pose proof (np_all_eq_broadcastable (atomicnums mol1) (atomicnums mol2))
    as Hb.
  unfold rmsd_dummy, bind at 1 2 3 4 5, assert_all_eq, comparison_error,
    assert, lift, read.
  destruct (np_all_eq _ _).
  - rewrite Hb by done. destruct (same_shape _ _); [|done]. simpl.
    by rewrite centering_run.
  - by destruct (broadcastable _ _).
Qed.

Lemma rmsd_isomorphic_run match_graphs (mol1 mol2 : Molecule)
    (center : bool) (h : heap) :
  rmsd_isomorphic match_graphs mol1 mol2 center h =
  if same_shape (atomicnums mol1) (atomicnums mol2)
     && same_shape (h (coordinates mol1)) (h (coordinates mol2))
  then
    let h' := centered mol1 mol2 center h in
    match match_graphs (to_graph mol1) (to_graph mol2) with
    | Raise e => (Raise e, h')
    | Ok m => (candidate_rmsd (h' (coordinates mol1)) (h' (coordinates mol2))
                              (len mol1) (m.*1) (m.*2), h')
    end
  else (Raise AssertionError, h).
Proof.
  unfold rmsd_isomorphic, bind at 1 2 3 4 5, assert, lift, read.
  destruct (same_shape (atomicnums mol1) _); [|done].
  destruct (same_shape (h _) _); [|done]. simpl.
  rewrite centering_run. unfold bind, candidate_rmsd, ret.
  destruct (match_graphs _ _) as [m|e]; [|done].
  destruct (take_rows _ (m.*1)); [|done]. simpl.
  by destruct (take_rows _ (m.*2)).
Qed.

Lemma rmsd_hungarian_run lsa (mol1 mol2 : Molecule) (center : bool) (h : heap) :
  rmsd_hungarian lsa mol1 mol2 center h =
  if same_shape (atomicnums mol1) (atomicnums mol2)
     && same_shape (h (coordinates mol1)) (h (coordinates mol2))
  then
    let h' := centered mol1 mol2 center h in
    (hungarian_rmsd lsa (h' (coordinates mol1)) (h' (coordinates mol2))
                    (atomicnums mol1) (atomicnums mol2), h')
  else (Raise AssertionError, h).
Proof.
  unfold rmsd_hungarian, bind at 1 2 3 4 5, assert, lift, read.
  destruct (same_shape (atomicnums mol1) _); [|done].
  destruct (same_shape (h _) _); [|done]. simpl.
  by rewrite centering_run.
Qed.

(** With [center=False], and in [rmsd_qcp], the heap is left as it was. *)
Lemma rmsd_dummy_uncentred_heap (mol1 mol2 : Molecule) (h : heap) :
  (rmsd_dummy mol1 mol2 false h).2 = h.
Proof. rewrite rmsd_dummy_run. by destruct (_ && _). Qed.

Lemma rmsd_qcp_heap qcp_rmsd (mol1 mol2 : Molecule) (h : heap) :
  (rmsd_qcp qcp_rmsd mol1 mol2 h).2 = h.
Proof.
  unfold rmsd_qcp, bind, assert_all_eq, assert, lift, read,
    center_of_geometry, ret.
  destruct (broadcastable _ _); [|done]. by destruct (np_all_eq _ _).
Qed.

(** The centering step as the heap sees it. *)
Lemma centered_first (mol1 mol2 : Molecule) (h : heap) :
  coordinates mol1 ≠ coordinates mol2 →
  centered mol1 mol2 true h (coordinates mol1)
  = np_sub_row (h (coordinates mol1)) (centroid (h (coordinates mol1))).
Proof.
  intros Hne. unfold centered.
  by rewrite fn_lookup_insert_ne, fn_lookup_insert.
Qed.

(** ** Arithmetic of the dummy formula *)

Lemma np_all_eq_refl (a : list Z) : np_all_eq a a = true.
Proof.
  unfold np_all_eq. rewrite Nat.eqb_refl.
  induction a as [|x a IH]; [done|]. simpl. by rewrite Z.eqb_refl.
Qed.

Lemma sq_dist_psub (p q : point) :
  (psub p q).1.1 * (psub p q).1.1 + (psub p q).1.2 * (psub p q).1.2
  + (psub p q).2 * (psub p q).2 = sq_dist p q.
Proof. by destruct p as [[??]?], q as [[??]?]. Qed.

Lemma sum_sq_dist_cons (N : nat) (p q : point) (a b : coords) :
  sum_sq_dist (S N) (p :: a) (q :: b) = sq_dist p q + sum_sq_dist N a b.
Proof.
  unfold sum_sq_dist. simpl. f_equal.
  rewrite <- fmap_S_seq, <- list_fmap_compose. done.
Qed.

Lemma np_sum_sq_dist (a b : coords) (N : nat) :
  length a = N → length b = N →
  np_sum (np_square (np_sub a b)) = sum_sq_dist N a b.
Proof.
  revert b N. induction a as [|p a IH]; intros [|q b] [|N] Ha Hb;
    try discriminate; [done|].
  injection Ha as Ha. injection Hb as Hb.
  rewrite sum_sq_dist_cons, <- (IH b N) by done.
  rewrite <- sq_dist_psub. unfold np_sub. simpl. lra.
Qed.

Lemma sqrt_is (x y : R) : 0 <= y → x = y * y → sqrt x = y.
Proof. intros Hy ->. by apply sqrt_square. Qed.

Lemma candidate_rmsd_nonneg a1 a2 n ks vs x :
  candidate_rmsd a1 a2 n ks vs = Ok x → 0 <= x.
Proof.
  unfold candidate_rmsd. destruct (take_rows a1 ks); [|done]. simpl.
  destruct (take_rows a2 vs); [|done]. simpl.
  intros [= <-]. apply sqrt_pos.
Qed.

(** The candidate RMSD of a mapping does not depend on the order of its
    items. *)
Lemma take_rows_in_range (a : coords) (idx : list nat) :
  Forall (λ i, (i < length a)%nat) idx →
  take_rows a idx = Ok (atom a <$> idx).
Proof.
  induction 1 as [|i idx Hi _ IH]; [done|]. simpl.
  destruct (lookup_lt_is_Some_2 a i Hi) as [p Hp].
  rewrite Hp, IH. simpl.
  unfold atom. by rewrite Hp.
Qed.

Lemma take_rows_out_of_range (a : coords) (idx : list nat) :
  ¬ Forall (λ i, (i < length a)%nat) idx →
  take_rows a idx = Raise IndexError.
Proof.
  induction idx as [|i idx IH]; intros Hno; [by destruct Hno|]. simpl.
  destruct (a !! i) as [p|] eqn:Hp; [|done].
  rewrite IH; [done|]. intros Hidx. apply Hno. constructor; [|done].
  by eapply lookup_lt_Some.
Qed.

Lemma np_sum_matched (a1 a2 : coords) (m : list (nat * nat)) :
  np_sum (np_square (np_sub (atom a1 <$> m.*1) (atom a2 <$> m.*2)))
  = matched_sq_dist a1 a2 m.
Proof.
  induction m as [|[k v] m IH]; [done|]. simpl in *.
  rewrite <- IH, <- sq_dist_psub. unfold np_sub. simpl. reflexivity.
Qed.

Lemma matched_sq_dist_Permutation (a1 a2 : coords) (m m' : list (nat * nat)) :
  m ≡ₚ m' → matched_sq_dist a1 a2 m = matched_sq_dist a1 a2 m'.
Proof.
  induction 1 as [|p m m' _ IH|p q m|m m' m'' _ IH1 _ IH2]; simpl.
  - done.
  - by rewrite IH.
  - lra.
  - by rewrite IH1.
Qed.

Lemma candidate_rmsd_Permutation (a1 a2 : coords) (n : nat)
    (m m' : list (nat * nat)) :
  m ≡ₚ m' →
  candidate_rmsd a1 a2 n (m.*1) (m.*2) = candidate_rmsd a1 a2 n (m'.*1) (m'.*2).
Proof.
  intros Hp. unfold candidate_rmsd.
  destruct (decide (Forall (λ i, (i < length a1)%nat) (m.*1))) as [H1|H1].
  - assert (Forall (λ i, (i < length a1)%nat) (m'.*1)) as H1'
      by (by rewrite <- Hp).
    rewrite (take_rows_in_range a1 (m.*1)),
      (take_rows_in_range a1 (m'.*1)) by done. simpl.
    destruct (decide (Forall (λ i, (i < length a2)%nat) (m.*2))) as [H2|H2].
    + assert (Forall (λ i, (i < length a2)%nat) (m'.*2)) as H2'
        by (by rewrite <- Hp).
      rewrite (take_rows_in_range a2 (m.*2)),
        (take_rows_in_range a2 (m'.*2)) by done. simpl.
      by rewrite !np_sum_matched, (matched_sq_dist_Permutation _ _ _ _ Hp).
    + assert (¬ Forall (λ i, (i < length a2)%nat) (m'.*2)) as H2'
        by (intros H; apply H2; by rewrite Hp).
      by rewrite (take_rows_out_of_range a2 (m.*2)),
        (take_rows_out_of_range a2 (m'.*2)).
  - assert (¬ Forall (λ i, (i < length a1)%nat) (m'.*1)) as H1'
      by (intros H; apply H1; by rewrite Hp).
    by rewrite (take_rows_out_of_range a1 (m.*1)),
      (take_rows_out_of_range a1 (m'.*1)).
Qed.

(** ** The examples *)

Lemma match_graphs_H2 :
  (nx.match_graphs nx.H2 nx.H2).2
    = Ok [([1; 0], [1; 0]); ([1; 0], [0; 1])]%nat.
Proof. by vm_compute. Qed.

Lemma first_isomorphism_H2 :
  first_isomorphism nx.H2 nx.H2 = Ok [(1, 1); (0, 0)]%nat.
Proof. by vm_compute. Qed.

Lemma first_isomorphism_H2_is_isomorphism :
  nx.is_isomorphism nx.same_atomicnum nx.H2 nx.H2
    [(1, 1); (0, 0)]%nat.
Proof.
  assert (nx.node_list nx.H2 = [1; 0]%nat) as Hn by (by vm_compute).
  unfold nx.is_isomorphism. rewrite Hn. repeat split; try done.
  - intros p q Hp Hq. set_unfold.
    destruct Hp as [->|[->|[]]], Hq as [->|[->|[]]]; by vm_compute.
  - intros p Hp. exists 1%Z. set_unfold.
    destruct Hp as [->|[->|[]]]; by vm_compute.
Qed.

Lemma automorphism_swap_H2 : automorphism [1; 0]%nat nx.H2.
Proof. split; [apply Permutation_swap | by vm_compute]. Qed.

(** ** The dummy RMSD *)

(** C7: for two molecules with equal atomic-number sequences and
    coordinate arrays of the same [N >= 1] atoms, [rmsd_dummy] with
    [center=False] returns sqrt((1/N) * sum over the atoms [i] of the
    squared Euclidean distance between the i-th points of the two
    coordinate sets), and leaves the arrays as they were. *)
Theorem rmsd_dummy_formula (mol1 mol2 : Molecule) (h : heap) (N : nat) :
  atomicnums mol1 = atomicnums mol2 →
  len mol1 = N →
  length (h (coordinates mol1)) = N →
  length (h (coordinates mol2)) = N →
  (1 ≤ N)%nat →
  rmsd_dummy mol1 mol2 false h =
  (Ok (sqrt (1 / INR N * sum_sq_dist N (h (coordinates mol1))
                                       (h (coordinates mol2)))), h).
Proof.
  intros Hnums Hlen H1 H2 HN. rewrite rmsd_dummy_run.
  rewrite Hnums, np_all_eq_refl. unfold same_shape.
  rewrite H1, H2, Nat.eqb_refl. simpl.
  rewrite (np_sum_sq_dist _ _ N), Hlen by done.
  do 3 f_equal. unfold Rdiv. lra.
Qed.

Lemma rmsd_dummy_formula_witness :
  atomicnums molA = atomicnums molB ∧
  len molA = 2%nat ∧
  length (heapAB (coordinates molA)) = 2%nat ∧
  length (heapAB (coordinates molB)) = 2%nat ∧
  (1 ≤ 2)%nat ∧
  rmsd_dummy molA molB false heapAB =
  (Ok (sqrt (1 / INR 2 * sum_sq_dist 2 (heapAB (coordinates molA))
                                       (heapAB (coordinates molB)))), heapAB).
Proof.
  repeat (split; [first [reflexivity | lia]|]).
  apply (rmsd_dummy_formula molA molB heapAB 2); first [reflexivity | lia].
Defined.

(** Identical coordinates in the same atom order: the dummy RMSD is 0. *)
Example rmsd_dummy_identical :
  rmsd_dummy molA molB false heapAA = (Ok 0, heapAA).
Proof.
  rewrite rmsd_dummy_run. simpl. do 2 f_equal. apply sqrt_is; lra.
Qed.

(** ** Centering and the caller's arrays *)

(** C2: the code departs from the claim.  After [rmsd_dummy],
    [rmsd_hungarian] and [rmsd_isomorphic] with [center=True] the
    coordinate array of the caller's first molecule holds the centred
    coordinates, not the ones passed in; [rmsd_qcp], which subtracts into
    a new array, leaves the heap as it was. *)
Theorem centering_mutates_the_callers_coordinates :
  heapAB (coordinates molA) = [(0, 0, 0); (1, 0, 0)] ∧
  (rmsd_dummy molA molB true heapAB).2 (coordinates molA)
    = [(-1/2, 0, 0); (1/2, 0, 0)] ∧
  (∀ lsa, (rmsd_hungarian lsa molA molB true heapAB).2 (coordinates molA)
    = [(-1/2, 0, 0); (1/2, 0, 0)]) ∧
  (∀ mg, (rmsd_isomorphic mg molA molB true heapAB).2 (coordinates molA)
    = [(-1/2, 0, 0); (1/2, 0, 0)]) ∧
  (∀ qcp, (rmsd_qcp qcp molA molB heapAB).2 = heapAB).
Proof.
  assert (centered molA molB true heapAB (coordinates molA)
          = [(-1/2, 0, 0); (1/2, 0, 0)]) as Hc.
  { rewrite centered_first by done.
    unfold np_sub_row, centroid, psub. simpl. repeat f_equal; lra. }
  split; [done|]. split; [|split; [|split]].
  - by rewrite rmsd_dummy_run.
  - intros lsa. by rewrite rmsd_hungarian_run.
  - intros mg. rewrite rmsd_isomorphic_run. simpl.
    by destruct (mg _ _).
  - intros qcp. apply rmsd_qcp_heap.
Qed.

(** ** The isomorphism RMSD and the minimum over the mappings *)

(** C1 (amended): [rmsd_isomorphic] returns the candidate RMSD of the one
    mapping that the graph matcher returns (the two coordinate sets,
    centred when [center] is set, permuted by the keys and by the values
    of that mapping).  When that mapping is an isomorphism of the two
    labelled graphs, the value is bounded below by the minimum of the
    candidate RMSDs over all the isomorphism mappings; it is not that
    minimum in general. *)
Theorem rmsd_isomorphic_single_mapping match_graphs (mol1 mol2 : Molecule)
    (center : bool) (h : heap) (m : list (nat * nat)) :
  same_shape (atomicnums mol1) (atomicnums mol2) = true →
  same_shape (h (coordinates mol1)) (h (coordinates mol2)) = true →
  match_graphs (to_graph mol1) (to_graph mol2) = Ok m →
  let h' := centered mol1 mol2 center h in
  let c1 := h' (coordinates mol1) in
  let c2 := h' (coordinates mol2) in
  let G1 := to_graph mol1 in
  let G2 := to_graph mol2 in
  rmsd_isomorphic match_graphs mol1 mol2 center h
    = (candidate_rmsd c1 c2 (len mol1) (m.*1) (m.*2), h') ∧
  ∀ all v r,
    nx.labelled_pair G1 G2 →
    nx.is_isomorphism (nx.applicable G1 G2) G1 G2 m →
    (nx.match_graphs G1 G2).2 = Ok all →
    minimum_candidate c1 c2 (len mol1) all v →
    candidate_rmsd c1 c2 (len mol1) (m.*1) (m.*2) = Ok r →
    v <= r.
Proof.
  intros Hn Hc Hm h' c1 c2 G1 G2. split.
  - by rewrite rmsd_isomorphic_run, Hn, Hc, Hm.
  - intros all v r Hlab Hiso Hall [_ Hmin] Hr.
    destruct (nx_theory.match_graphs_lists_isomorphism G1 G2 all m
                Hlab Hall Hiso) as (ks & vs & Hin & Hlen & Hp).
    apply (Hmin (ks, vs)); [done|]. simpl.
    rewrite <- Hr, <- (candidate_rmsd_Permutation _ _ _ _ _ Hp).
    by rewrite fst_zip, snd_zip by lia.
Qed.

Lemma rmsd_isomorphic_single_mapping_witness :
  same_shape (atomicnums molA) (atomicnums molB) = true ∧
  same_shape (heapAB (coordinates molA)) (heapAB (coordinates molB)) = true ∧
  first_isomorphism (to_graph molA) (to_graph molB) = Ok [(1, 1); (0, 0)]%nat ∧
  rmsd_isomorphic first_isomorphism molA molB false heapAB
    = (candidate_rmsd (heapAB (coordinates molA)) (heapAB (coordinates molB))
                      (len molA) [1; 0]%nat [1; 0]%nat, heapAB).
Proof.
  split; [reflexivity|]. split; [reflexivity|].
  split; [exact first_isomorphism_H2|].
  exact (proj1 (rmsd_isomorphic_single_mapping first_isomorphism molA molB
                  false heapAB [(1, 1); (0, 0)]%nat eq_refl eq_refl
                  first_isomorphism_H2)).
Defined.

(** C1, as stated, fails: for two dihydrogen molecules whose atoms are
    numbered in opposite orders the graphs have two isomorphism mappings;
    with the first of them [rmsd_isomorphic] returns 1, while the minimum
    of the candidate RMSDs over the two mappings is 0. *)
Lemma rmsd_isomorphic_not_minimum :
  (nx.match_graphs (to_graph molA) (to_graph molB)).2
    = Ok [([1; 0], [1; 0]); ([1; 0], [0; 1])]%nat ∧
  rmsd_isomorphic first_isomorphism molA molB false heapAB = (Ok 1, heapAB) ∧
  minimum_candidate (heapAB (coordinates molA)) (heapAB (coordinates molB))
    (len molA) [([1; 0], [1; 0]); ([1; 0], [0; 1])]%nat 0.
Proof.
  split; [by vm_compute|]. split.
  - rewrite rmsd_isomorphic_run. simpl. unfold to_graph. simpl.
    rewrite first_isomorphism_H2. unfold candidate_rmsd. simpl.
    do 2 f_equal. apply sqrt_is; lra.
  - split.
    + exists ([1; 0], [0; 1])%nat. split; [set_solver|].
      unfold candidate_rmsd. simpl. f_equal. apply sqrt_is; lra.
    + intros kv x _. apply candidate_rmsd_nonneg.
Qed.

(** The same holds whichever single mapping the matcher returns: one of
    the two numberings of the second molecule is off the minimum, which
    is 0 in both. *)
Lemma single_mapping_off_minimum match_graphs (m : list (nat * nat)) :
  match_graphs nx.H2 nx.H2 = Ok m →
  nx.is_isomorphism nx.same_atomicnum nx.H2 nx.H2 m →
  (rmsd_isomorphic match_graphs molA molB false heapAB).1 = Ok 1 ∨
  (rmsd_isomorphic match_graphs molA molB false heapAA).1 = Ok 1.
Proof.
  intros Hm (H1 & H2 & _).
  assert (nx.node_list nx.H2 = [1; 0]%nat) as Hn by (by vm_compute).
  rewrite Hn in H1, H2. symmetry in H1, H2.
  apply Permutation_length_2_inv in H1, H2.
  rewrite !rmsd_isomorphic_run. unfold to_graph. simpl. rewrite Hm.
  unfold candidate_rmsd.
  destruct H1 as [->| ->], H2 as [->| ->]; simpl.
  - left. f_equal. apply sqrt_is; lra.
  - right. f_equal. apply sqrt_is; lra.
  - right. f_equal. apply sqrt_is; lra.
  - left. f_equal. apply sqrt_is; lra.
Qed.

(** ** Relabelling the second molecule by an automorphism *)

Lemma permute_lookup {A : Type} (π : list nat) (l : list A) (i : nat) :
  Forall (λ j, (j < length l)%nat) π →
  permute π l !! i = π !! i ≫= (l !!.).
Proof.
  unfold permute. intros Hπ. revert i.
  induction Hπ as [|j π Hj _ IH]; intros i; [done|].
  destruct (lookup_lt_is_Some_2 l j Hj) as [x Hx].
  simpl. rewrite Hx. simpl. destruct i as [|i]; simpl; [done|]. apply IH.
Qed.

Lemma length_permute {A : Type} (π : list nat) (l : list A) :
  Forall (λ j, (j < length l)%nat) π → length (permute π l) = length π.
Proof.
  unfold permute. induction 1 as [|j π Hj _ IH]; [done|].
  destruct (lookup_lt_is_Some_2 l j Hj) as [x Hx].
  simpl. rewrite Hx. simpl. f_equal. exact IH.
Qed.

Lemma take_rows_permute (π : list nat) (c : coords) (vs : list nat) :
  Forall (λ j, (j < length c)%nat) π →
  Forall (λ v, (v < length π)%nat) vs →
  take_rows (permute π c) vs = take_rows c (via π <$> vs).
Proof.
  intros Hπ. induction 1 as [|v vs Hv _ IH]; [done|].
  simpl. rewrite permute_lookup by done.
  destruct (lookup_lt_is_Some_2 π v Hv) as [j Hj].
  unfold via at 1. rewrite Hj. simpl. by rewrite IH.
Qed.

Lemma automorphism_in_range (π : list nat) (G : nx.Graph) :
  automorphism π G → Forall (λ j, (j < length π)%nat) π.
Proof.
  intros [Hp _]. apply List.Forall_forall. intros j Hj.
  rewrite Hp in Hj. apply in_seq in Hj. lia.
Qed.

Lemma compose_fst π m : (compose π m).*1 = m.*1.
Proof. unfold compose. rewrite <- list_fmap_compose. by apply list_fmap_ext. Qed.

Lemma compose_snd π m : (compose π m).*2 = via π <$> m.*2.
Proof. unfold compose. by rewrite <- !list_fmap_compose. Qed.

Lemma relabel_graph_nodes (π : list nat) (G : nx.Graph) (i : nat) :
  nx.nodes (relabel_graph π G) !! i =
  if decide (i < length π)%nat then Some (nx.attrs G (via π i)) else None.
Proof.
  unfold relabel_graph. simpl. rewrite lookup_map_seq_0, list_lookup_fmap.
  case_decide as Hi.
  - by rewrite lookup_seq_lt.
  - by rewrite lookup_seq_ge by lia.
Qed.

Lemma relabel_graph_has_edge (π : list nat) (G : nx.Graph) (i j : nat) :
  (i < length π)%nat → (j < length π)%nat →
  nx.has_edge (relabel_graph π G) i j = nx.has_edge G (via π i) (via π j).
Proof.
  intros Hi Hj. unfold nx.has_edge at 1, relabel_graph. simpl.
  rewrite lookup_map_seq_0, list_lookup_fmap, lookup_seq_lt by done. simpl.
  destruct (nx.has_edge G (via π i) (via π j)) eqn:He.
  - apply bool_decide_eq_true. apply elem_of_list_to_set, list_elem_of_In.
    apply filter_In. split; [apply in_seq; lia | done].
  - apply bool_decide_eq_false.
    intros [_ Hf]%elem_of_list_to_set%list_elem_of_In%filter_In.
    unfold via in He. congruence.
Qed.

Lemma node_list_relabel (π : list nat) (G : nx.Graph) :
  nx.node_list (relabel_graph π G) ≡ₚ seq 0 (length π).
Proof.
  apply NoDup_Permutation.
  - unfold nx.node_list. apply NoDup_elements.
  - apply NoDup_seq.
  - intros i. unfold nx.node_list.
    rewrite elem_of_elements, elem_of_dom, relabel_graph_nodes, elem_of_seq.
    case_decide; split; try lia; done.
Qed.

Lemma via_seq (π : list nat) : via π <$> seq 0 (length π) = π.
Proof.
  apply list_eq. intros i. rewrite list_lookup_fmap.
  destruct (decide (i < length π)%nat) as [Hi|Hi].
  - rewrite lookup_seq_lt by done. simpl. unfold via.
    destruct (lookup_lt_is_Some_2 π i Hi) as [j Hj]. by rewrite Hj.
  - rewrite lookup_seq_ge by lia. symmetry. apply lookup_ge_None. lia.
Qed.

Lemma composed_isomorphism compat (G1 G2 : nx.Graph) (π : list nat)
    (m : list (nat * nat)) :
  automorphism π G2 →
  nx.is_isomorphism compat G1 G2 m →
  Forall (λ v, (v < length π)%nat) (m.*2) ∧
  nx.is_isomorphism compat G1 G2 (compose π m).
Proof.
  intros [Hπ Haut] (H1 & H2 & H3 & H4).
  assert (nx.node_list G2 ≡ₚ seq 0 (length π)) as Hnodes.
  { rewrite <- Haut at 1. apply node_list_relabel. }
  assert (∀ p, p ∈ m → (p.2 < length π)%nat) as Hrange.
  { intros p Hp. assert (p.2 ∈ seq 0 (length π)) as Hin.
    { rewrite <- Hnodes, <- H2. by apply list_elem_of_fmap_2. }
    apply elem_of_seq in Hin. lia. }
  split.
  { apply Forall_fmap, List.Forall_forall. intros p Hp%list_elem_of_In.
    by apply Hrange. }
  repeat split.
  - by rewrite compose_fst.
  - by rewrite compose_snd, H2, Hnodes, via_seq.
  - intros p' q' (p & -> & Hp)%list_elem_of_fmap (q & -> & Hq)%list_elem_of_fmap.
    simpl. rewrite (H3 p q) by done.
    rewrite <- relabel_graph_has_edge by by apply Hrange.
    by rewrite Haut.
  - intros p' (p & -> & Hp)%list_elem_of_fmap. simpl.
    assert (nx.attrs G2 (via π p.2) = nx.attrs G2 p.2) as ->; [|by apply H4].
    unfold nx.attrs at 2. rewrite <- Haut at 2.
    by rewrite relabel_graph_nodes, decide_True by by apply Hrange.
Qed.

(** Centering and relabelling commute: a permutation of the atoms leaves
    the centroid where it was. *)
Lemma length_centre (a : coords) : length (centre a) = length a.
Proof. unfold centre, np_sub_row. by rewrite length_fmap. Qed.

Lemma permute_seq {A : Type} (l : list A) : permute (seq 0 (length l)) l = l.
Proof.
  assert (∀ (f : nat → option A) (g : nat → nat) (k : list nat),
            omap f (g <$> k) = omap (f ∘ g) k) as Hfmap.
  { intros f g k. induction k as [|i k IHk]; [done|].
    csimpl. by rewrite IHk. }
  unfold permute. induction l as [|x l IH]; [done|].
  simpl. f_equal. rewrite <- fmap_S_seq, Hfmap. exact IH.
Qed.

Lemma permute_Permutation {A : Type} (π : list nat) (l : list A) :
  π ≡ₚ seq 0 (length l) → permute π l ≡ₚ l.
Proof.
  intros Hπ. rewrite <- (permute_seq l) at 2. unfold permute. by rewrite Hπ.
Qed.

Lemma centroid_Permutation (a b : coords) : a ≡ₚ b → centroid a = centroid b.
Proof.
  intros Hp. unfold centroid. rewrite (Permutation_length Hp).
  assert (∀ f : point → R,
            foldr (λ p acc, f p + acc) 0 a = foldr (λ p acc, f p + acc) 0 b)
    as Hsum.
  { intros f. clear -Hp.
    induction Hp as [|p a b _ IH|p q a|a b c _ IH1 _ IH2]; simpl.
    - done.
    - by rewrite IH.
    - lra.
    - by rewrite IH1. }
  by rewrite (Hsum (λ p, p.1.1)), (Hsum (λ p, p.1.2)), (Hsum (λ p, p.2)).
Qed.

Lemma np_sub_row_permute (π : list nat) (a : coords) (v : point) :
  np_sub_row (permute π a) v = permute π (np_sub_row a v).
Proof.
  unfold np_sub_row, permute. rewrite list_fmap_omap.
  induction π as [|i π IH]; [done|].
  csimpl. rewrite list_lookup_fmap, IH. by destruct (a !! i).
Qed.

Lemma centre_permute (π : list nat) (a : coords) :
  π ≡ₚ seq 0 (length a) → centre (permute π a) = permute π (centre a).
Proof.
  intros Hπ. unfold centre.
  rewrite (centroid_Permutation _ _ (permute_Permutation π a Hπ)).
  apply np_sub_row_permute.
Qed.

Lemma centered_separate (mol1 mol2 : Molecule) (center : bool) (h : heap) :
  coordinates mol1 ≠ coordinates mol2 →
  centered mol1 mol2 center h (coordinates mol1)
  = (if center then centre (h (coordinates mol1)) else h (coordinates mol1)) ∧
  centered mol1 mol2 center h (coordinates mol2)
  = (if center then centre (h (coordinates mol2)) else h (coordinates mol2)).
Proof.
  intros Hne. destruct center; [|done]. unfold centered, centre. split.
  - by rewrite fn_lookup_insert_ne, fn_lookup_insert.
  - by rewrite fn_lookup_insert, fn_lookup_insert_ne.
Qed.

(** C6 (amended): for two isomorphic molecules that do not share a
    coordinate array and an automorphism [π] of the second molecule's
    graph (a permutation of its atoms), relabelling the second molecule's
    atoms (coordinates, atomic numbers and graph vertices together) by
    [π] turns the value that [rmsd_isomorphic] returns, with or without
    centering, from the candidate RMSD of the matcher's mapping into the
    candidate RMSD of that mapping followed by [π], which is again an
    isomorphism mapping of the original pair; the value is unchanged when
    these two candidates agree. *)
Theorem rmsd_isomorphic_relabelled match_graphs compat (mol1 mol2 : Molecule)
    (π : list nat) (center : bool) (h : heap) (m : list (nat * nat)) :
  automorphism π (graph mol2) →
  coordinates mol1 ≠ coordinates mol2 →
  length π = len mol2 →
  length π = length (h (coordinates mol2)) →
  same_shape (atomicnums mol1) (atomicnums mol2) = true →
  same_shape (h (coordinates mol1)) (h (coordinates mol2)) = true →
  match_graphs (to_graph mol1) (to_graph mol2) = Ok m →
  nx.is_isomorphism compat (to_graph mol1) (to_graph mol2) m →
  let h' := centered mol1 mol2 center h in
  let c1 := h' (coordinates mol1) in
  let c2 := h' (coordinates mol2) in
  (rmsd_isomorphic match_graphs mol1 mol2 center h).1
    = candidate_rmsd c1 c2 (len mol1) (m.*1) (m.*2) ∧
  (rmsd_isomorphic match_graphs mol1 (relabel π mol2 h).1 center
                   (relabel π mol2 h).2).1
    = candidate_rmsd c1 c2 (len mol1) ((compose π m).*1) ((compose π m).*2) ∧
  nx.is_isomorphism compat (to_graph mol1) (to_graph mol2) (compose π m).
Proof.
  intros Haut Hne Hlen Hc2 Hn Hc Hm Hiso h' c1 c2.
  pose proof (automorphism_in_range _ _ Haut) as Hπ.
  destruct (composed_isomorphism _ _ _ _ _ Haut Hiso) as [Hvs Hiso'].
  split; [|split; [|done]].
  - by rewrite rmsd_isomorphic_run, Hn, Hc, Hm.
  - destruct Haut as [Hperm Hgraph]. unfold len in Hlen.
    assert (Forall (λ j, (j < length (atomicnums mol2))%nat) π) as Hπn
      by (by rewrite <- Hlen).
    assert (Forall (λ j, (j < length (h (coordinates mol2)))%nat) π) as Hπc
      by (by rewrite <- Hc2).
    set (mol2' := (relabel π mol2 h).1). set (hr := (relabel π mol2 h).2).
    assert (hr (coordinates mol1) = h (coordinates mol1)) as Hr1.
    { unfold hr, relabel. simpl. by rewrite fn_lookup_insert_ne. }
    assert (hr (coordinates mol2) = permute π (h (coordinates mol2))) as Hr2.
    { unfold hr, relabel. simpl. by rewrite fn_lookup_insert. }
    assert (to_graph mol2' = to_graph mol2) as Hg by exact Hgraph.
    assert (same_shape (atomicnums mol1) (atomicnums mol2') = true) as Hn'.
    { rewrite <- Hn. unfold same_shape, mol2', relabel. simpl.
      by rewrite length_permute, Hlen. }
    assert (same_shape (hr (coordinates mol1)) (hr (coordinates mol2')) = true)
      as Hc'.
    { rewrite <- Hc. change (coordinates mol2') with (coordinates mol2).
      unfold same_shape. rewrite Hr1, Hr2. by rewrite length_permute, Hc2. }
    rewrite rmsd_isomorphic_run, Hn', Hc', Hg, Hm. cbn [andb]. cbv zeta.
    cbn [fst].
    destruct (centered_separate mol1 mol2 center h Hne) as [H1 H2].
    destruct (centered_separate mol1 mol2' center hr Hne) as [H1' H2'].
    change (coordinates mol2') with (coordinates mol2) in *.
    assert (centered mol1 mol2' center hr (coordinates mol1) = c1) as ->.
    { unfold c1, h'. by rewrite H1', H1, Hr1. }
    assert (centered mol1 mol2' center hr (coordinates mol2) = permute π c2)
      as ->.
    { unfold c2, h'. rewrite H2', H2, Hr2. destruct center; [|done].
      apply centre_permute. by rewrite <- Hc2. }
    unfold candidate_rmsd. rewrite compose_fst, compose_snd.
    rewrite take_rows_permute; [done| |done].
    unfold c2, h'. rewrite H2. by destruct center; rewrite ?length_centre.
Qed.

Lemma rmsd_isomorphic_relabelled_witness :
  automorphism [1; 0]%nat (graph molB) ∧
  coordinates molA ≠ coordinates molB ∧
  length [1; 0]%nat = len molB ∧
  length [1; 0]%nat = length (heapAA (coordinates molB)) ∧
  same_shape (atomicnums molA) (atomicnums molB) = true ∧
  same_shape (heapAA (coordinates molA)) (heapAA (coordinates molB)) = true ∧
  first_isomorphism (to_graph molA) (to_graph molB) = Ok [(1, 1); (0, 0)]%nat ∧
  nx.is_isomorphism nx.same_atomicnum (to_graph molA) (to_graph molB)
    [(1, 1); (0, 0)]%nat ∧
  (rmsd_isomorphic first_isomorphism molA
     (relabel [1; 0]%nat molB heapAA).1 true
     (relabel [1; 0]%nat molB heapAA).2).1
  = candidate_rmsd (centered molA molB true heapAA (coordinates molA))
      (centered molA molB true heapAA (coordinates molB))
      (len molA)
      ((compose [1; 0]%nat [(1, 1); (0, 0)]%nat).*1)
      ((compose [1; 0]%nat [(1, 1); (0, 0)]%nat).*2).
Proof.
  assert (coordinates molA ≠ coordinates molB) as Hne by (simpl; lia).
  split; [exact automorphism_swap_H2|]. split; [exact Hne|].
  do 4 (split; [reflexivity|]).
  split; [exact first_isomorphism_H2|].
  split; [exact first_isomorphism_H2_is_isomorphism|].
  exact (proj1 (proj2 (rmsd_isomorphic_relabelled first_isomorphism
           nx.same_atomicnum molA molB [1; 0]%nat true heapAA
           [(1, 1); (0, 0)]%nat automorphism_swap_H2 Hne eq_refl eq_refl
           eq_refl eq_refl first_isomorphism_H2
           first_isomorphism_H2_is_isomorphism))).
Defined.

(** C6, as stated, fails: swapping the two atoms of the second dihydrogen
    molecule is an automorphism of its graph (the relabelled graph is the
    same graph), and it changes the returned value from 0 to 1. *)
Lemma rmsd_isomorphic_changes_under_automorphism :
  relabel_graph [1; 0]%nat (graph molB) = graph molB ∧
  (rmsd_isomorphic first_isomorphism molA molB false heapAA).1 = Ok 0 ∧
  (rmsd_isomorphic first_isomorphism molA
     (relabel [1; 0]%nat molB heapAA).1 false
     (relabel [1; 0]%nat molB heapAA).2).1 = Ok 1.
Proof.
  split; [by vm_compute|]. split.
  - rewrite rmsd_isomorphic_run. simpl. unfold to_graph. simpl.
    rewrite first_isomorphism_H2. unfold candidate_rmsd. simpl.
    f_equal. apply sqrt_is; lra.
  - rewrite rmsd_isomorphic_run. unfold relabel, to_graph. simpl.
    assert (relabel_graph [1; 0]%nat nx.H2 = nx.H2) as -> by (by vm_compute).
    rewrite first_isomorphism_H2. unfold candidate_rmsd. simpl.
    f_equal. apply sqrt_is; lra.
Qed.

(** ** The assignment RMSD and the populations of the atomic numbers *)

Lemma length_filter_indices (z : Z) (labels : list Z) (k : nat) :
  length (List.filter (λ i, bool_decide (labels !! (i - k)%nat = Some z))
                      (seq k (length labels)))
  = population z labels.
Proof.
  unfold population. revert k.
  induction labels as [|x labels IH]; intros k; [done|].
  simpl. rewrite Nat.sub_diag. simpl.
  rewrite (List.filter_ext_in _
             (λ i, bool_decide (labels !! (i - S k)%nat = Some z))).
  - specialize (IH (S k)). destruct (Z.eqb_spec z x) as [->|Hne].
    + rewrite bool_decide_eq_true_2 by done. simpl. by rewrite IH.
    + rewrite bool_decide_eq_false_2 by congruence. done.
  - intros i Hi%in_seq. replace (i - k)%nat with (S (i - S k)) by lia. done.
Qed.

Lemma length_class_indices (z : Z) (labels : list Z) :
  length (class_indices z labels) = population z labels.
Proof.
  unfold class_indices. rewrite <- (length_filter_indices z labels 0).
  f_equal. apply List.filter_ext. intros i. by rewrite Nat.sub_0_r.
Qed.

Lemma population_elem_of (z : Z) (labels : list Z) :
  population z labels ≠ 0%nat → z ∈ labels.
Proof.
  unfold population. induction labels as [|x labels IH]; [done|]. simpl.
  destruct (Z.eqb_spec z x) as [->|Hne]; [by left|]. right. by apply IH.
Qed.

Lemma hungarian_rmsd_population_mismatch lsa (c1 c2 : coords)
    (labels1 labels2 : list Z) (z : Z) :
  population z labels1 ≠ population z labels2 →
  hungarian_rmsd lsa c1 c2 labels1 labels2 = Raise LabelCountMismatch.
Proof.
  intros Hz. unfold hungarian_rmsd.
  destruct (forallb _ _) eqn:Hall; [|done]. exfalso.
  rewrite List.forallb_forall in Hall. specialize (Hall z).
  rewrite !length_class_indices in Hall.
  apply Hz, Nat.eqb_eq, Hall, list_elem_of_In.
  apply elem_of_remove_dups, elem_of_app.
  destruct (decide (population z labels1 = 0%nat)) as [H0|H0].
  - right. apply population_elem_of. lia.
  - left. by apply population_elem_of.
Qed.

(** C8 (amended): when some atomic number has different populations in the
    two structures, [rmsd_hungarian] fails and returns no number: with an
    assertion failure when the shapes of the atomic-number arrays or of
    the coordinate arrays differ, and with [LabelCountMismatch] when the
    shapes agree. *)
Theorem rmsd_hungarian_population_mismatch lsa (mol1 mol2 : Molecule)
    (center : bool) (h : heap) (z : Z) :
  population z (atomicnums mol1) ≠ population z (atomicnums mol2) →
  (rmsd_hungarian lsa mol1 mol2 center h).1 =
  Raise (if same_shape (atomicnums mol1) (atomicnums mol2)
            && same_shape (h (coordinates mol1)) (h (coordinates mol2))
         then LabelCountMismatch else AssertionError).
Proof.
  intros Hz. rewrite rmsd_hungarian_run. destruct (_ && _); [|done].
  simpl. by eapply hungarian_rmsd_population_mismatch.
Qed.

(** C8, as stated, fails: one hydrogen atom against two has different
    populations of hydrogen, and the comparison ends in the assertion
    failure on the shapes, not in [LabelCountMismatch]. *)
Lemma rmsd_hungarian_shape_mismatch :
  population 1 (atomicnums molH) = 1%nat ∧
  population 1 (atomicnums molHH) = 2%nat ∧
  rmsd_hungarian identity_assignment molH molHH false heapH
    = (Raise AssertionError, heapH).
Proof. repeat split. Qed.

Lemma rmsd_hungarian_population_mismatch_witness :
  population 8 (atomicnums molOH) ≠ population 8 (atomicnums molB) ∧
  (rmsd_hungarian identity_assignment molOH molB false heapAB).1 =
  Raise (if same_shape (atomicnums molOH) (atomicnums molB)
            && same_shape (heapAB (coordinates molOH))
                          (heapAB (coordinates molB))
         then LabelCountMismatch else AssertionError).
Proof.
  assert (population 8 (atomicnums molOH) ≠ population 8 (atomicnums molB))
    as Hz by (vm_compute; lia).
  split; [exact Hz|].
  exact (rmsd_hungarian_population_mismatch identity_assignment molOH molB
           false heapAB 8 Hz).
Defined.

End rmsd_theory.

(** * Properties of the batch wrapper *)

Module parallel_theory.
Import parallel.

Section pool.

Context (cfg : Config) (jobs : list Behaviour).

Lemma consistent_initial :
  Forall2 (consistent cfg) jobs (replicate (length jobs) Pending).
Proof. induction jobs; by constructor. Qed.

Lemma step_consistent (slots slots' : list JobState) :
  step cfg jobs slots slots' →
  Forall2 (consistent cfg) jobs slots →
  Forall2 (consistent cfg) jobs slots'.
Proof.
  intros Hstep Hinv.
  assert (∀ i s, is_Some (jobs !! i) → (∀ b, jobs !! i = Some b → consistent cfg b s) →
                 Forall2 (consistent cfg) jobs (<[i := s]> slots)) as Hins.
  { intros i s [b Hb] Hs. rewrite <- (list_insert_id jobs i b Hb).
    apply Forall2_insert; [done|]. by apply Hs. }
  destruct Hstep as [i slots Hi _|i slots t v Hi Hb Ht|i slots t Hi Hb Ht
                    |i slots T b Hi Hb HT Hex].
  - apply Hins; [|done].
    destruct (Forall2_lookup_r _ _ _ _ _ Hinv Hi) as (b & Hb & _). by exists b.
  - apply Hins; [by eexists|]. intros b Hb'. simplify_eq. by exists t.
  - apply Hins; [by eexists|]. intros b Hb'. simplify_eq. by exists t.
  - apply Hins; [by eexists|]. intros b' Hb'. simplify_eq. by exists T.
Qed.

Lemma rtc_step_consistent (slots slots' : list JobState) :
  rtc (step cfg jobs) slots slots' →
  Forall2 (consistent cfg) jobs slots →
  Forall2 (consistent cfg) jobs slots'.
Proof. induction 1; eauto using step_consistent. Qed.

Lemma consistent_final (b : Behaviour) (s : JobState) :
  consistent cfg b s → is_final s = true → surface s = outcome cfg b.
Proof.
  destruct s; simpl; try done.
  - by intros (t & -> & Ht) _; simpl; rewrite Ht.
  - intros (T & HT & Hex) _. destruct b as [t v| |]; try done. simpl in *.
    unfold within_budget. rewrite HT.
    apply Nat.ltb_lt in Hex. by rewrite (proj2 (Nat.leb_gt t T)).
  - by intros (t & -> & _) _.
Qed.

Lemma consistent_results (slots : list JobState) :
  Forall2 (consistent cfg) jobs slots →
  forallb is_final slots = true →
  surface <$> slots = outcome cfg <$> jobs.
Proof.
  induction 1 as [|b s js ss Hbs _ IH]; [done|]. simpl.
  intros [Hs Hss]%andb_true_iff. f_equal; [by apply consistent_final | by apply IH].
Qed.

Lemma returns_outcome (results : list RMSDResult) :
  returns cfg jobs results → results = outcome cfg <$> jobs.
Proof.
  intros (slots & Hrun & Hfin & ->). apply consistent_results; [|done].
  eapply rtc_step_consistent; [done|]. apply consistent_initial.
Qed.

Lemma measure_insert (slots : list JobState) (i : nat) (s s' : JobState) :
  slots !! i = Some s →
  measure (<[i := s']> slots) + weight s = measure slots + weight s'.
Proof.
  revert i. induction slots as [|x slots IH]; intros [|i] Hi; simplify_eq/=.
  - lia.
  - specialize (IH i Hi). lia.
Qed.

Lemma step_measure (slots slots' : list JobState) :
  step cfg jobs slots slots' → measure slots' < measure slots.
Proof.
  destruct 1 as [i slots Hi _|i slots t v Hi _ _|i slots t Hi _ _
                |i slots T b Hi _ _ _];
    match goal with
    | |- measure (<[_ := ?s']> _) < _ =>
        pose proof (measure_insert _ _ _ s' Hi)
    end; simpl in *; lia.
Qed.

Lemma running_step (slots : list JobState) (i : nat) (b : Behaviour) :
  ¬ stalls cfg b → slots !! i = Some Running → jobs !! i = Some b →
  ∃ slots', step cfg jobs slots slots'.
Proof.
  intros Hstall Hi Hb.
  destruct (timeout cfg) as [T|] eqn:HT.
  - destruct (exceeds T b) eqn:Hex.
    { eexists. by eapply step_timeout. }
    destruct b as [t v|t|]; [| |done]; simpl in Hex; apply Nat.ltb_ge in Hex.
    + eexists. eapply step_complete; [done..|].
      unfold within_budget. rewrite HT. by apply Nat.leb_le.
    + eexists. eapply step_fail; [done..|].
      unfold within_budget. rewrite HT. by apply Nat.leb_le.
  - destruct b as [t v|t|].
    + eexists. eapply step_complete; [done..|]. unfold within_budget. by rewrite HT.
    + eexists. eapply step_fail; [done..|]. unfold within_budget. by rewrite HT.
    + by destruct Hstall.
Qed.

Lemma running_zero (slots : list JobState) :
  existsb is_running slots = false → running slots = 0.
Proof.
  unfold running. induction slots as [|s slots IH]; [done|]. simpl.
  intros [-> Hs]%orb_false_iff. by apply IH.
Qed.

Lemma not_final_lookup (slots : list JobState) :
  forallb is_final slots = false →
  ∃ i s, slots !! i = Some s ∧ is_final s = false.
Proof.
  induction slots as [|x slots IH]; [done|]. simpl.
  destruct (is_final x) eqn:Hx; simpl.
  - intros (i & s & Hi & Hs)%IH. by exists (S i), s.
  - intros _. by exists 0, x.
Qed.

Lemma running_lookup (slots : list JobState) :
  existsb is_running slots = true → ∃ i, slots !! i = Some Running.
Proof.
  induction slots as [|x slots IH]; [done|]. simpl.
  destruct x; simpl; try (intros [i Hi]%IH; by exists (S i)).
  intros _. by exists 0.
Qed.

Lemma progress (slots : list JobState) :
  1 ≤ num_workers cfg →
  Forall (λ b, ¬ stalls cfg b) jobs →
  Forall2 (consistent cfg) jobs slots →
  forallb is_final slots = false →
  ∃ slots', step cfg jobs slots slots'.
Proof.
  intros Hw Hstall Hinv Hfin.
  destruct (existsb is_running slots) eqn:Hrun.
  - apply running_lookup in Hrun as [i Hi].
    destruct (Forall2_lookup_r _ _ _ _ _ Hinv Hi) as (b & Hb & _).
    eapply running_step; [|done..].
    eapply Forall_lookup_1 in Hstall; done.
  - apply not_final_lookup in Hfin as (i & s & Hi & Hs).
    destruct s; try done.
    + eexists. eapply step_dispatch; [done|]. rewrite running_zero by done. lia.
    + assert (existsb is_running slots = true) as Hr; [|congruence].
      apply existsb_exists. exists Running. split; [|done].
      apply list_elem_of_In. by eapply list_elem_of_lookup_2.
Qed.

Lemma eventually_final (slots : list JobState) :
  1 ≤ num_workers cfg →
  Forall (λ b, ¬ stalls cfg b) jobs →
  Forall2 (consistent cfg) jobs slots →
  ∃ slots', rtc (step cfg jobs) slots slots' ∧ forallb is_final slots' = true.
Proof.
  intros Hw Hstall. remember (measure slots) as n eqn:Hn.
  revert slots Hn. induction (lt_wf n) as [n _ IH]. intros slots -> Hinv.
  destruct (forallb is_final slots) eqn:Hfin; [by exists slots|].
  destruct (progress slots Hw Hstall Hinv Hfin) as [slots1 Hstep].
  destruct (IH _ (step_measure _ _ Hstep) slots1 eq_refl) as (slots' & Hrun & Hf).
  { by eapply step_consistent. }
  exists slots'. split; [by econstructor|done].
Qed.

Lemma batch_returns :
  1 ≤ num_workers cfg →
  Forall (λ b, ¬ stalls cfg b) jobs →
  ∃ results, returns cfg jobs results.
Proof.
  intros Hw Hstall.
  destruct (eventually_final (replicate (length jobs) Pending) Hw Hstall)
    as (slots & Hrun & Hfin); [apply consistent_initial|].
  exists (surface <$> slots), slots. done.
Qed.

End pool.

(** C3: under a configuration with a per-pair timeout [T] and at least one
    worker, if the computation of the pair at position [i] exceeds the
    timeout, then the batch call returns (some schedule of the pool ends,
    and every schedule that has not ended can move on, each move bringing
    it closer to the end), and however the moves of the workers
    interleave, slot [i] of the returned sequence holds the "unavailable"
    sentinel, which is no RMSD value: the timeout is no failure of the
    batch. *)
Theorem timed_out_pair_is_unavailable (cfg : Config) (jobs : list Behaviour)
    (T i : nat) (b : Behaviour) :
  timeout cfg = Some T →
  1 ≤ num_workers cfg →
  jobs !! i = Some b →
  exceeds T b = true →
  (∃ results, returns cfg jobs results) ∧
  (∀ slots, rtc (step cfg jobs) (replicate (length jobs) Pending) slots →
            forallb is_final slots = false →
            ∃ slots', step cfg jobs slots slots' ∧
                      measure slots' < measure slots) ∧
  (∀ results, returns cfg jobs results → results !! i = Some Unavailable) ∧
  (∀ r, Unavailable ≠ Value r).
Proof.
  intros HT Hw Hb Hex.
  assert (Forall (λ b, ¬ stalls cfg b) jobs) as Hstall.
  { apply Forall_forall. intros b' _ [Hnone _]. congruence. }
  split; [|split; [|split; [|done]]].
  - by apply batch_returns.
  - intros slots Hrun Hfin.
    destruct (progress cfg jobs slots Hw Hstall) as [slots' Hstep]; [|done|].
    { eapply rtc_step_consistent; [done|]. apply consistent_initial. }
    exists slots'. split; [done|]. by eapply step_measure.
  - intros results ->%returns_outcome.
    rewrite list_lookup_fmap, Hb. simpl. f_equal.
    destruct b as [t v| |]; try done. simpl in *.
    unfold within_budget. rewrite HT.
    apply Nat.ltb_lt in Hex. by rewrite (proj2 (Nat.leb_gt t T)).
Qed.

Lemma timed_out_pair_is_unavailable_witness :
  timeout (mkConfig (Some 3) 1) = Some 3 ∧
  1 ≤ num_workers (mkConfig (Some 3) 1) ∧
  [Hangs] !! 0 = Some Hangs ∧
  exceeds 3 Hangs = true ∧
  (∃ results, returns (mkConfig (Some 3) 1) [Hangs] results) ∧
  (∀ slots, rtc (step (mkConfig (Some 3) 1) [Hangs])
                (replicate (length [Hangs]) Pending) slots →
            forallb is_final slots = false →
            ∃ slots', step (mkConfig (Some 3) 1) [Hangs] slots slots' ∧
                      measure slots' < measure slots) ∧
  (∀ results, returns (mkConfig (Some 3) 1) [Hangs] results →
              results !! 0 = Some Unavailable) ∧
  (∀ r, Unavailable ≠ Value r).
Proof.
  do 4 (split; [reflexivity|]).
  exact (timed_out_pair_is_unavailable (mkConfig (Some 3) 1) [Hangs] 3 0 Hangs
           eq_refl (le_n 1) eq_refl eq_refl).
Defined.

(** C4: whenever a batch call returns, the returned sequence has exactly
    one result per target, and the result at each position is the one of
    the target at that position (its value, or the sentinel when its
    computation fails or exceeds the timeout), whatever the order in which
    the workers complete. *)
Theorem batch_results_in_input_order (cfg : Config) (jobs : list Behaviour)
    (results : list RMSDResult) :
  returns cfg jobs results →
  length results = length jobs ∧
  ∀ i b, jobs !! i = Some b → results !! i = Some (outcome cfg b).
Proof.
  intros ->%returns_outcome. split; [by rewrite length_fmap|].
  intros i b Hb. by rewrite list_lookup_fmap, Hb.
Qed.

Lemma three_targets_return :
  returns (mkConfig (Some 3) 2) [Finishes 1 0; Hangs; Crashes 2]
          [Value 0; Unavailable; Unavailable].
Proof.
  exists [Completed 0; TimedOut; Failed]. split; [|done].
  (* the second and third pairs start first and end last *)
  eapply rtc_l;
    [apply (step_dispatch _ _ 1); [reflexivity | vm_compute; lia]|]. simpl.
  eapply rtc_l;
    [apply (step_dispatch _ _ 2); [reflexivity | vm_compute; lia]|]. simpl.
  eapply rtc_l; [by eapply (step_fail _ _ 2)|]. simpl.
  eapply rtc_l;
    [apply (step_dispatch _ _ 0); [reflexivity | vm_compute; lia]|]. simpl.
  eapply rtc_l; [by eapply (step_timeout _ _ 1)|]. simpl.
  eapply rtc_l; [by eapply (step_complete _ _ 0)|]. simpl.
  done.
Qed.

Lemma batch_results_in_input_order_witness :
  returns (mkConfig (Some 3) 2) [Finishes 1 0; Hangs; Crashes 2]
          [Value 0; Unavailable; Unavailable] ∧
  length [Value 0; Unavailable; Unavailable]
    = length [Finishes 1 0; Hangs; Crashes 2] ∧
  ∀ i b, [Finishes 1 0; Hangs; Crashes 2] !! i = Some b →
         [Value 0; Unavailable; Unavailable] !! i
           = Some (outcome (mkConfig (Some 3) 2) b).
Proof.
  split; [exact three_targets_return|].
  exact (batch_results_in_input_order _ _ _ three_targets_return).
Defined.

End parallel_theory.

(** * Further properties of spyrmsd/graphs/nx.py *)

Module nx_laws.
Import nx nx_theory.

(** ** Vertex counts *)

Lemma length_node_list (G : Graph) : length (node_list G) = num_vertices G.
Proof.
  unfold node_list, num_vertices.
  rewrite <- (size_dom (D := gset nat)). done.
Qed.

Lemma select_subseteq node_match (G1 G2 : Graph) (cands l : list mapping) :
  select node_match G1 G2 cands = Ok l → ∀ m, m ∈ l → m ∈ cands.
Proof.
  revert l. induction cands as [|c cands IH]; intros l; simpl.
  - intros [= <-] m Hm. done.
  - destruct (match node_match with None => _ | Some f => _ end) as [b|e];
      [|done]. simpl.
    destruct (select node_match G1 G2 cands) as [r|e]; [|done]. simpl.
    intros [= <-] m Hm. destruct b.
    + apply elem_of_cons in Hm as [->|Hm]; [by left|]. right. by eapply IH.
    + right. by eapply IH.
Qed.

Lemma match_graphs_Ok_inv (G1 G2 : Graph) (all : list (list nat * list nat)) :
  (match_graphs G1 G2).2 = Ok all →
  ∃ l, isomorphisms_iter (chosen_node_match G1 G2) G1 G2 = Ok l ∧ l ≠ [] ∧
       all = (λ isomorphism : mapping, (isomorphism.*1, isomorphism.*2)) <$> l.
Proof.
  rewrite match_graphs_unfold. simpl. unfold is_isomorphic.
  destruct (isomorphisms_iter _ G1 G2) as [l|e]; [|done]. simpl.
  case_bool_decide as Hl; [done|]. simpl. intros [= <-]. by exists l.
Qed.

(** X1: two graphs whose numbers of vertices ([num_vertices]) differ are
    rejected by [match_graphs] with [ValueError], whatever their labels;
    and whenever [match_graphs] returns, the two graphs have the same
    number of vertices, the returned collection is not empty, and each
    of its pairs lists every node of the first graph once against every
    node of the second once, both sequences as long as the graphs have
    vertices. *)
Theorem match_graphs_vertex_counts (G1 G2 : Graph) :
  (num_vertices G1 ≠ num_vertices G2 →
   (match_graphs G1 G2).2 = Raise ValueError) ∧
  (∀ all, (match_graphs G1 G2).2 = Ok all →
          num_vertices G1 = num_vertices G2 ∧ all ≠ [] ∧
          ∀ ks vs, (ks, vs) ∈ all →
                   ks ≡ₚ node_list G1 ∧ vs ≡ₚ node_list G2 ∧
                   length ks = num_vertices G1 ∧
                   length vs = num_vertices G2).
Proof.
  split.
  - intros Hne. rewrite match_graphs_unfold. simpl.
    unfold is_isomorphic, isomorphisms_iter, candidates.
    rewrite !length_node_list.
    by rewrite (proj2 (Nat.eqb_neq _ _) Hne).
  - intros all (l & Hl & Hne & ->)%match_graphs_Ok_inv.
    assert (∀ m, m ∈ l → m.*1 = node_list G1 ∧ m.*2 ≡ₚ node_list G2) as Hin.
    { intros m Hm. apply elem_of_candidates.
      eapply select_subseteq in Hm; [|exact Hl].
      apply list_elem_of_In, filter_In in Hm as [Hm _].
      by apply list_elem_of_In. }
    assert (num_vertices G1 = num_vertices G2) as Hnum.
    { destruct l as [|m l]; [done|]. destruct (Hin m) as [H1 H2]; [by left|].
      rewrite <- !length_node_list, <- H1, <- H2. by rewrite !length_fmap. }
    split; [done|]. split; [by destruct l|].
    intros ks vs (m & [= -> ->] & Hm)%list_elem_of_fmap.
    destruct (Hin m Hm) as [H1 H2]. split; [by rewrite H1|]. split; [done|].
    rewrite H1, H2. by rewrite !length_node_list.
Qed.

Lemma match_graphs_vertex_counts_witness :
  (match_graphs one_vertex two_vertices).2 = Raise ValueError ∧
  (num_vertices H2 = num_vertices H2 ∧
   [([1; 0], [1; 0]); ([1; 0], [0; 1])] ≠ [] ∧
   ∀ ks vs, (ks, vs) ∈ [([1; 0], [1; 0]); ([1; 0], [0; 1])] →
            ks ≡ₚ node_list H2 ∧ vs ≡ₚ node_list H2 ∧
            length ks = num_vertices H2 ∧ length vs = num_vertices H2).
Proof.
  split.
  - apply (proj1 (match_graphs_vertex_counts one_vertex two_vertices)).
    vm_compute. lia.
  - apply (proj2 (match_graphs_vertex_counts H2 H2)
             [([1; 0], [1; 0]); ([1; 0], [0; 1])]).
    vm_compute. reflexivity.
Defined.

(** ** A graph against itself *)

Lemma identity_on_fst (G : Graph) : (identity_on G).*1 = node_list G.
Proof.
  unfold identity_on. rewrite <- list_fmap_compose. apply list_fmap_id.
Qed.

Lemma identity_on_snd (G : Graph) : (identity_on G).*2 = node_list G.
Proof.
  unfold identity_on. rewrite <- list_fmap_compose. apply list_fmap_id.
Qed.

Lemma identity_on_is_isomorphism (G : Graph) :
  unlabelled G ∨ fully_labelled G →
  is_isomorphism (applicable G G) G G (identity_on G).
Proof.
  intros HG. unfold is_isomorphism.
  rewrite identity_on_fst, identity_on_snd. repeat split; try done.
  - by intros p q (u & -> & _)%list_elem_of_fmap (v & -> & _)%list_elem_of_fmap.
  - intros p (u & -> & Hu)%list_elem_of_fmap. simpl. unfold applicable.
    case_decide as Hun; [done|]. destruct HG as [HG|HG]; [tauto|].
    apply elem_of_node_list in Hu.
    destruct (fully_labelled_attrs G u HG Hu) as [z Hz]. by exists z.
Qed.

(** X2: [match_graphs] of a graph against itself never raises when the
    graph carries an atomic number on every vertex or on none, and the
    identity (every node matched to itself: a pair of two equal
    sequences that list the nodes of the graph) is among the mappings it
    returns. *)
Theorem match_graphs_reflexive (G : Graph) :
  unlabelled G ∨ fully_labelled G →
  ∃ all ks, (match_graphs G G).2 = Ok all ∧
            (ks, ks) ∈ all ∧ ks ≡ₚ node_list G.
Proof.
  intros HG.
  assert (labelled_pair G G) as Hlab by (destruct HG; [left; by left|by right]).
  destruct (match_graphs_result G G Hlab) as (l & Hin & ->).
  assert (identity_on G ∈ l) as Hid.
  { apply Hin. split; [apply identity_on_fst|].
    by apply identity_on_is_isomorphism. }
  rewrite bool_decide_eq_false_2 by (intros ->; by apply elem_of_nil in Hid).
  eexists _, (node_list G). split; [done|]. split; [|done].
  apply list_elem_of_fmap.
  exists (identity_on G). by rewrite identity_on_fst, identity_on_snd.
Qed.

Lemma match_graphs_reflexive_witness :
  (unlabelled H2 ∨ fully_labelled H2) ∧
  ∃ all ks, (match_graphs H2 H2).2 = Ok all ∧
            (ks, ks) ∈ all ∧ ks ≡ₚ node_list H2.
Proof.
  assert (unlabelled H2 ∨ fully_labelled H2) as HG.
  { right. exact H2_fully_labelled. }
  split; [exact HG|]. exact (match_graphs_reflexive H2 HG).
Defined.

(** ** The two graphs exchanged *)

Lemma swap_mapping_fst (m : mapping) : (swap_mapping m).*1 = m.*2.
Proof. unfold swap_mapping. by rewrite <- list_fmap_compose. Qed.

Lemma swap_mapping_snd (m : mapping) : (swap_mapping m).*2 = m.*1.
Proof. unfold swap_mapping. by rewrite <- list_fmap_compose. Qed.

Lemma applicable_sym (G1 G2 : Graph) (d1 d2 : gmap string Z) :
  applicable G1 G2 d1 d2 → applicable G2 G1 d2 d1.
Proof.
  unfold applicable.
  destruct (decide (unlabelled G1 ∨ unlabelled G2)),
           (decide (unlabelled G2 ∨ unlabelled G1)); try tauto.
  intros (z & H1 & H2). by exists z.
Qed.

Lemma swap_is_isomorphism (G1 G2 : Graph) (m : mapping) :
  is_isomorphism (applicable G1 G2) G1 G2 m →
  is_isomorphism (applicable G2 G1) G2 G1 (swap_mapping m).
Proof.
  intros (H1 & H2 & H3 & H4). unfold is_isomorphism.
  rewrite swap_mapping_fst, swap_mapping_snd. repeat split; try done.
  - intros p' q' (p & -> & Hp)%list_elem_of_fmap (q & -> & Hq)%list_elem_of_fmap.
    simpl. symmetry. by apply H3.
  - intros p' (p & -> & Hp)%list_elem_of_fmap. simpl.
    by apply applicable_sym, H4.
Qed.

Lemma labelled_pair_sym (G1 G2 : Graph) :
  labelled_pair G1 G2 → labelled_pair G2 G1.
Proof. unfold labelled_pair. tauto. Qed.

Lemma raises_iff_listed_nil (G1 G2 : Graph) :
  labelled_pair G1 G2 →
  raises (match_graphs G1 G2).2 ↔ ¬ isomorphic (applicable G1 G2) G1 G2.
Proof.
  intros Hlab. destruct (match_graphs_result G1 G2 Hlab) as (l & Hin & ->).
  rewrite (isomorphic_iff_listed _ _ _ _ Hin). case_bool_decide as Hl.
  - split; [by intros _ ?|]. intros _. by exists ValueError.
  - split; [by intros [e ?]|]. intros H. by destruct H.
Qed.

(** X3: on labelled graphs (a label on every vertex of both, or none on
    one of them) [match_graphs] does not depend on the order of its two
    arguments: it raises on [(G1, G2)] exactly when it raises on
    [(G2, G1)], and every mapping returned for [(G1, G2)] is returned,
    turned round and up to the order of its items, for [(G2, G1)]. *)
Theorem match_graphs_symmetric (G1 G2 : Graph) :
  labelled_pair G1 G2 →
  (raises (match_graphs G1 G2).2 ↔ raises (match_graphs G2 G1).2) ∧
  (∀ all12 all21 ks vs,
     (match_graphs G1 G2).2 = Ok all12 →
     (match_graphs G2 G1).2 = Ok all21 →
     (ks, vs) ∈ all12 →
     ∃ ks' vs', (ks', vs') ∈ all21 ∧ length ks' = length vs' ∧
                zip ks' vs' ≡ₚ zip vs ks).
Proof.
  intros Hlab. pose proof (labelled_pair_sym _ _ Hlab) as Hlab'. split.
  - rewrite !raises_iff_listed_nil by done. split.
    + intros Hno [m Hm]. apply Hno. exists (swap_mapping m).
      by apply swap_is_isomorphism.
    + intros Hno [m Hm]. apply Hno. exists (swap_mapping m).
      by apply swap_is_isomorphism.
  - intros all12 all21 ks vs H12 H21 Hin.
    destruct (match_graphs_result G1 G2 Hlab) as (l & Hl & Hres).
    rewrite H12 in Hres. case_bool_decide; [done|]. injection Hres as ->.
    apply list_elem_of_fmap in Hin as (m & [= -> ->] & Hm).
    apply Hl in Hm as [_ Hm]. apply swap_is_isomorphism in Hm.
    destruct (match_graphs_lists_isomorphism G2 G1 all21 _ Hlab' H21 Hm)
      as (ks' & vs' & Hin' & Hlen & Hp).
    exists ks', vs'. split; [done|]. split; [done|].
    rewrite Hp. unfold swap_mapping.
    rewrite <- (zip_fst_snd ((λ p, (p.2, p.1)) <$> m)).
    by rewrite <- !list_fmap_compose.
Qed.

Lemma OH_fully_labelled : fully_labelled OH.
Proof. unfold fully_labelled. apply (bool_decide_unpack _). by vm_compute. Qed.

Lemma match_graphs_symmetric_witness :
  labelled_pair H2 OH ∧
  (raises (match_graphs H2 OH).2 ↔ raises (match_graphs OH H2).2).
Proof.
  assert (labelled_pair H2 OH) as Hlab.
  { right. split; [exact H2_fully_labelled | exact OH_fully_labelled]. }
  split; [exact Hlab|].
  exact (proj1 (match_graphs_symmetric H2 OH Hlab)).
Defined.

(** ** Labels that cannot be matched *)

(** X4: when both graphs carry an atomic number on every vertex and some
    vertex of the first graph carries an atomic number that no vertex of
    the second graph carries, [match_graphs] raises [ValueError]. *)
Theorem match_graphs_missing_element (G1 G2 : Graph) (u : nat)
    (d : gmap string Z) (z : Z) :
  fully_labelled G1 → fully_labelled G2 →
  nodes G1 !! u = Some d → d !! "atomicnum" = Some z →
  map_Forall (λ _ d', d' !! "atomicnum" ≠ Some z) (nodes G2) →
  (match_graphs G1 G2).2 = Raise ValueError.
Proof.
  intros HG1 HG2 Hu Hz Hno.
  assert (labelled_pair G1 G2) as Hlab by (by right).
  destruct (match_graphs_result G1 G2 Hlab) as (l & Hin & ->).
  case_bool_decide as Hl; [done|]. exfalso.
  apply (isomorphic_iff_listed _ _ _ _ Hin) in Hl as [m (H1 & H2 & _ & H4)].
  assert (u ∈ m.*1) as (p & -> & Hp)%list_elem_of_fmap.
  { rewrite H1. apply elem_of_node_list. by eexists. }
  assert (is_Some (nodes G2 !! p.2)) as [d' Hd'].
  { apply elem_of_node_list. rewrite <- H2. by apply list_elem_of_fmap_2. }
  specialize (H4 p Hp). unfold applicable, attrs in H4.
  rewrite Hu, Hd' in H4. simpl in H4.
  case_decide as Hun.
  - destruct Hun as [Hun|Hun].
    + specialize (Hun _ _ Hu). simpl in Hun. congruence.
    + specialize (Hun _ _ Hd'). destruct (HG2 _ _ Hd') as [z' Hz'].
      simpl in Hun. congruence.
  - destruct H4 as (z' & Hz1 & Hz2). apply (Hno _ _ Hd'). congruence.
Qed.

Lemma match_graphs_missing_element_witness :
  (match_graphs OH H2).2 = Raise ValueError.
Proof.
  apply (match_graphs_missing_element OH H2 1 {[ "atomicnum" := 8%Z ]} 8%Z).
  - exact OH_fully_labelled.
  - exact H2_fully_labelled.
  - reflexivity.
  - reflexivity.
  - apply (bool_decide_unpack _). vm_compute. exact I.
Defined.

(** ** The warning *)

(** X5: [match_graphs] issues its warning exactly when one of the two
    graphs has no atomic number on any vertex, and issues nothing
    otherwise; in particular a graph without vertices brings the warning
    about. *)
Theorem match_graphs_warns_iff (G1 G2 : Graph) :
  ((match_graphs G1 G2).1 = [no_atomicnum_warning] ↔
   unlabelled G1 ∨ unlabelled G2) ∧
  ((match_graphs G1 G2).1 = [] ↔
   ¬ (unlabelled G1 ∨ unlabelled G2)) ∧
  (nodes G1 = ∅ → (match_graphs G1 G2).1 = [no_atomicnum_warning]).
Proof.
  rewrite match_graphs_unfold. simpl.
  destruct (decide (unlabelled G1 ∨ unlabelled G2)) as [Hu|Hu].
  - rewrite chosen_node_match_unlabelled by done.
    split; [by split|]. split; [by split|]. done.
  - rewrite chosen_node_match_labelled by done.
    split; [by split|]. split; [by split|].
    intros Hempty. destruct Hu. left. intros v d' Hv.
    by rewrite Hempty, lookup_empty in Hv.
Qed.

Lemma match_graphs_warns_iff_witness :
  (match_graphs (mkGraph ∅ ∅) H2).1 = [no_atomicnum_warning].
Proof.
  apply (proj2 (proj2 (match_graphs_warns_iff (mkGraph ∅ ∅) H2))).
  reflexivity.
Defined.

(** ** Graphs built from an adjacency matrix *)

Lemma num_vertices_set_node_attributes (G : Graph) values name :
  num_vertices (set_node_attributes G values name) = num_vertices G.
Proof.
  unfold num_vertices, set_node_attributes. simpl.
  rewrite <- !(size_dom (D := gset nat)). f_equal.
  apply dom_imap_L. intros i. rewrite elem_of_dom. split.
  - intros [d Hd]. exists d. split; [done|]. by eexists.
  - intros (d & Hd & _). by eexists.
Qed.

Lemma num_vertices_Graph_of_array (A : list (list Z)) (G : Graph) :
  Graph_of_array A = Ok G → num_vertices G = length A.
Proof.
  unfold Graph_of_array. destruct (forallb _ A); [|done].
  intros [= <-]. unfold num_vertices. simpl.
  rewrite <- (size_dom (D := gset nat)), dom_seq_L, size_set_seq.
  by rewrite length_replicate.
Qed.

Lemma nodes_Graph_of_array (A : list (list Z)) (G : Graph) :
  Graph_of_array A = Ok G →
  ∀ i, nodes G !! i = if decide (i < length A) then Some ∅ else None.
Proof.
  unfold Graph_of_array. destruct (forallb _ A); [|done].
  intros [= <-] i. simpl. rewrite lookup_map_seq_0. case_decide.
  - by apply lookup_replicate_2.
  - apply lookup_replicate_None. lia.
Qed.

(** X6: whenever [graph_from_adjacency_matrix] returns a graph, with or
    without atomic numbers and whatever the length of their sequence,
    [num_vertices] of that graph is the number of rows of the matrix. *)
Theorem num_vertices_graph_from_adjacency_matrix (A : list (list Z))
    (atomicnums : option (list Z)) (G : Graph) :
  graph_from_adjacency_matrix A atomicnums = Ok G →
  num_vertices G = length A.
Proof.
  unfold graph_from_adjacency_matrix.
  destruct (Graph_of_array A) as [G0|e] eqn:HG0; [|done]. simpl.
  pose proof (num_vertices_Graph_of_array A G0 HG0) as Hn.
  destruct atomicnums as [nums|]; intros [= <-]; [|done].
  by rewrite num_vertices_set_node_attributes.
Qed.

Lemma num_vertices_graph_from_adjacency_matrix_witness :
  graph_from_adjacency_matrix [[0; 1]; [1; 0]]%Z (Some [1; 1; 8]%Z) = Ok H2 ∧
  num_vertices H2 = length [[0; 1]; [1; 0]]%Z.
Proof.
  assert (graph_from_adjacency_matrix [[0; 1]; [1; 0]]%Z (Some [1; 1; 8]%Z)
          = Ok H2) as HG by (vm_compute; reflexivity).
  split; [exact HG|].
  exact (num_vertices_graph_from_adjacency_matrix _ _ _ HG).
Defined.

(** X7: for a matrix given as a two-dimensional numpy array of integers,
    reading the "atomicnum" attributes back from the graph that
    [graph_from_adjacency_matrix] builds gives the atomic numbers that
    were passed in, vertex by vertex, cut to the number of rows of the
    matrix; the entries beyond the last vertex are dropped without an
    error, and passing the cut sequence builds the same graph. *)
Theorem get_node_attributes_graph_from_adjacency_matrix (A : list (list Z))
    (atomicnums : list Z) (G : Graph) :
  graph_from_adjacency_matrix A (Some atomicnums) = Ok G →
  get_node_attributes G "atomicnum"
    = map_seq 0 (take (length A) atomicnums) ∧
  graph_from_adjacency_matrix A (Some (take (length A) atomicnums)) = Ok G.
Proof.
  unfold graph_from_adjacency_matrix.
  destruct (Graph_of_array A) as [G0|e] eqn:HG0; [|done]. simpl.
  intros [= <-]. pose proof (nodes_Graph_of_array A G0 HG0) as Hnodes.
  split.
  - apply map_eq. intros i. unfold get_node_attributes, set_node_attributes.
    simpl. rewrite lookup_omap, map_lookup_imap, Hnodes, !lookup_map_seq_0.
    case_decide as Hi; simpl.
    + rewrite lookup_take_lt by done.
      destruct (atomicnums !! i); simpl; [by rewrite lookup_insert_eq|done].
    + by rewrite lookup_take_ge by lia.
  - f_equal. unfold set_node_attributes. f_equal. apply map_eq. intros i.
    rewrite !map_lookup_imap, Hnodes. case_decide as Hi; [|done]. simpl.
    by rewrite !lookup_map_seq_0, lookup_take_lt.
Qed.

Lemma get_node_attributes_graph_from_adjacency_matrix_witness :
  graph_from_adjacency_matrix [[0; 1]; [1; 0]]%Z (Some [1; 1; 8]%Z) = Ok H2 ∧
  get_node_attributes H2 "atomicnum"
    = map_seq 0 (take (length [[0; 1]; [1; 0]]%Z) [1; 1; 8]%Z) ∧
  graph_from_adjacency_matrix [[0; 1]; [1; 0]]%Z
    (Some (take (length [[0; 1]; [1; 0]]%Z) [1; 1; 8]%Z)) = Ok H2.
Proof.
  assert (graph_from_adjacency_matrix [[0; 1]; [1; 0]]%Z (Some [1; 1; 8]%Z)
          = Ok H2) as HG by (vm_compute; reflexivity).
  split; [exact HG|].
  exact (get_node_attributes_graph_from_adjacency_matrix _ _ _ HG).
Defined.

(** X8: on the graph that [graph_from_adjacency_matrix] builds from a
    matrix given as a two-dimensional numpy array of integers and a
    sequence of atomic numbers, [vertex_property] returns the i-th atomic
    number for the property "atomicnum" at a vertex [i] that has one, and
    raises [KeyError] in every other case: an index that is not a vertex
    (not below the number of rows), a vertex beyond the end of the
    sequence, and any other property name. *)
Theorem vertex_property_graph_from_adjacency_matrix (A : list (list Z))
    (atomicnums : list Z) (G : Graph) (vproperty : string) (idx : nat) :
  graph_from_adjacency_matrix A (Some atomicnums) = Ok G →
  vertex_property G vproperty idx =
  if decide (vproperty = "atomicnum") then
    match take (length A) atomicnums !! idx with
    | Some z => Ok z
    | None => Raise KeyError
    end
  else Raise KeyError.
Proof.
  unfold graph_from_adjacency_matrix.
  destruct (Graph_of_array A) as [G0|e] eqn:HG0; [|done]. simpl.
  intros [= <-]. pose proof (nodes_Graph_of_array A G0 HG0) as Hnodes.
  unfold vertex_property, set_node_attributes. simpl.
  rewrite map_lookup_imap, Hnodes, lookup_map_seq_0.
  destruct (decide (idx < length A)) as [Hi|Hi]; simpl.
  - rewrite lookup_take_lt by done.
    destruct (atomicnums !! idx) as [z|]; case_decide as Hp.
    + subst. by rewrite lookup_insert_eq.
    + by rewrite lookup_insert_ne.
    + done.
    + done.
  - rewrite lookup_take_ge by lia. by case_decide.
Qed.

Lemma vertex_property_graph_from_adjacency_matrix_witness :
  vertex_property H2 "atomicnum" 1 = Ok 1%Z ∧
  vertex_property H2 "atomicnum" 2 = Raise KeyError ∧
  vertex_property H2 "charge" 0 = Raise KeyError.
Proof.
  assert (graph_from_adjacency_matrix [[0; 1]; [1; 0]]%Z (Some [1; 1; 8]%Z)
          = Ok H2) as HG by (vm_compute; reflexivity).
  split; [|split].
  - exact (vertex_property_graph_from_adjacency_matrix _ _ _ "atomicnum" 1 HG).
  - exact (vertex_property_graph_from_adjacency_matrix _ _ _ "atomicnum" 2 HG).
  - exact (vertex_property_graph_from_adjacency_matrix _ _ _ "charge" 0 HG).
Defined.

End nx_laws.

(** * Further properties of pyrmsd/rmsd.py *)

Module rmsd_laws.
Import rmsd rmsd_theory.
Local Open Scope R_scope.

(** ** The arrays of the caller *)

Lemma rmsd_isomorphic_uncentred_heap mg (mol1 mol2 : Molecule) (h : heap) :
  (rmsd_isomorphic mg mol1 mol2 false h).2 = h.
Proof.
  rewrite rmsd_isomorphic_run. destruct (_ && _); [|done]. simpl.
  by destruct (mg _ _).
Qed.

Lemma rmsd_hungarian_uncentred_heap lsa (mol1 mol2 : Molecule) (h : heap) :
  (rmsd_hungarian lsa mol1 mol2 false h).2 = h.
Proof. rewrite rmsd_hungarian_run. by destruct (_ && _). Qed.

(** X9: with [center=False], [rmsd_dummy], [rmsd_hungarian] and
    [rmsd_isomorphic] write to no array: whatever the molecules, the
    assignment solver and the graph matcher are, and whether the call
    returns or raises, the heap after the call is the heap before it. *)
Theorem uncentred_calls_leave_the_arrays (mol1 mol2 : Molecule) (h : heap) :
  (rmsd_dummy mol1 mol2 false h).2 = h ∧
  (∀ lsa, (rmsd_hungarian lsa mol1 mol2 false h).2 = h) ∧
  (∀ mg, (rmsd_isomorphic mg mol1 mol2 false h).2 = h).
Proof.
  split; [apply rmsd_dummy_uncentred_heap|]. split.
  - intros lsa. apply rmsd_hungarian_uncentred_heap.
  - intros mg. apply rmsd_isomorphic_uncentred_heap.
Qed.

(** X10: every check comes before the centering step.  When the check of
    the atomic numbers or of the shapes does not pass, [rmsd_dummy],
    [rmsd_qcp], [rmsd_hungarian] and [rmsd_isomorphic] raise and leave the
    heap as it was, also with [center=True]: [ValueError] from the
    comparison [==] itself when the two arrays of atomic numbers cannot
    be broadcast against each other ([rmsd_dummy], [rmsd_qcp]), and
    [AssertionError] in every other case.  [rmsd_dummy] raises in no
    other way. *)
Theorem shape_checks_precede_centering (mol1 mol2 : Molecule) (center : bool)
    (h : heap) :
  (raises (rmsd_dummy mol1 mol2 center h).1 ↔
   np_all_eq (atomicnums mol1) (atomicnums mol2)
   && same_shape (h (coordinates mol1)) (h (coordinates mol2)) = false) ∧
  (np_all_eq (atomicnums mol1) (atomicnums mol2)
   && same_shape (h (coordinates mol1)) (h (coordinates mol2)) = false →
   rmsd_dummy mol1 mol2 center h
   = (Raise (if broadcastable (atomicnums mol1) (atomicnums mol2)
             then AssertionError else ValueError), h)) ∧
  (np_all_eq (atomicnums mol1) (atomicnums mol2) = false →
   ∀ qcp, rmsd_qcp qcp mol1 mol2 h
          = (Raise (if broadcastable (atomicnums mol1) (atomicnums mol2)
                    then AssertionError else ValueError), h)) ∧
  (same_shape (atomicnums mol1) (atomicnums mol2)
   && same_shape (h (coordinates mol1)) (h (coordinates mol2)) = false →
   (∀ lsa, rmsd_hungarian lsa mol1 mol2 center h = (Raise AssertionError, h)) ∧
   (∀ mg, rmsd_isomorphic mg mol1 mol2 center h = (Raise AssertionError, h))).
Proof.
  split; [|split; [|split]].
  - rewrite rmsd_dummy_run. destruct (_ && _).
    + split; [by intros [e ?]|done].
    + split; [done|]. intros _. by eexists.
  - intros Hno. by rewrite rmsd_dummy_run, Hno.
  - intros Hno qcp.
    unfold rmsd_qcp, bind, assert_all_eq, assert, lift. rewrite Hno.
    by destruct (broadcastable _ _).
  - intros Hno. split.
    + intros lsa. by rewrite rmsd_hungarian_run, Hno.
    + intros mg. by rewrite rmsd_isomorphic_run, Hno.
Qed.

Lemma shape_checks_precede_centering_witness :
  rmsd_dummy molH molHH true heapH = (Raise AssertionError, heapH) ∧
  rmsd_dummy molHH molHHH true heapH = (Raise ValueError, heapH) ∧
  (∀ mg, rmsd_isomorphic mg molH molHH true heapH
         = (Raise AssertionError, heapH)).
Proof.
  split; [|split].
  - apply (proj1 (proj2 (shape_checks_precede_centering molH molHH true heapH))).
    reflexivity.
  - apply (proj1 (proj2 (shape_checks_precede_centering molHH molHHH true
                           heapH))).
    reflexivity.
  - apply (proj2 (proj2 (proj2 (shape_checks_precede_centering molH molHH true
                                  heapH)))).
    reflexivity.
Defined.

(** ** Sums of squares *)

Lemma np_sum_sq_cons (p q : point) (a b : coords) :
  np_sum (np_square (np_sub (p :: a) (q :: b)))
  = sq_dist p q + np_sum (np_square (np_sub a b)).
Proof. rewrite <- sq_dist_psub. reflexivity. Qed.

Lemma sq_dist_sym (p q : point) : sq_dist p q = sq_dist q p.
Proof. unfold sq_dist. ring. Qed.

Lemma sq_dist_nonneg (p q : point) : 0 <= sq_dist p q.
Proof.
  destruct p as [[x y] z], q as [[x' y'] z']. unfold sq_dist. simpl.
  pose proof (Rle_0_sqr (x - x')). pose proof (Rle_0_sqr (y - y')).
  pose proof (Rle_0_sqr (z - z')). unfold Rsqr in *. lra.
Qed.

Lemma sq_dist_zero (p q : point) : sq_dist p q = 0 → p = q.
Proof.
  destruct p as [[x y] z], q as [[x' y'] z']. unfold sq_dist. simpl.
  intros H.
  pose proof (Rle_0_sqr (x - x')) as Hx. pose proof (Rle_0_sqr (y - y')) as Hy.
  pose proof (Rle_0_sqr (z - z')) as Hz. unfold Rsqr in *.
  assert ((x - x') * (x - x') = 0) as Hx0 by lra.
  assert ((y - y') * (y - y') = 0) as Hy0 by lra.
  assert ((z - z') * (z - z') = 0) as Hz0 by lra.
  apply Rmult_integral in Hx0, Hy0, Hz0.
  assert (x = x') by lra. assert (y = y') by lra. assert (z = z') by lra.
  congruence.
Qed.

Lemma np_sum_sq_sym (a b : coords) :
  np_sum (np_square (np_sub a b)) = np_sum (np_square (np_sub b a)).
Proof.
  revert b. induction a as [|p a IH]; intros [|q b]; try done.
  by rewrite !np_sum_sq_cons, IH, sq_dist_sym.
Qed.

Lemma np_sum_sq_nonneg (a b : coords) :
  0 <= np_sum (np_square (np_sub a b)).
Proof.
  revert b. induction a as [|p a IH]; intros [|q b];
    try (simpl; lra).
  rewrite np_sum_sq_cons. pose proof (sq_dist_nonneg p q).
  specialize (IH b). lra.
Qed.

Lemma np_sum_sq_zero (a b : coords) :
  length a = length b →
  np_sum (np_square (np_sub a b)) = 0 ↔ a = b.
Proof.
  revert b. induction a as [|p a IH]; intros [|q b] Hlen; try done.
  injection Hlen as Hlen. specialize (IH b Hlen).
  pose proof (np_sum_sq_nonneg a b) as Hpos.
  pose proof (sq_dist_nonneg p q) as Hpq.
  rewrite np_sum_sq_cons. split.
  - intros Hsum. f_equal; [apply sq_dist_zero; lra|]. apply IH. lra.
  - intros [= -> ->]. apply proj2 in IH. rewrite (IH eq_refl).
    unfold sq_dist. ring.
Qed.

Lemma sqrt_div_zero (x : R) (n : nat) :
  0 <= x → (1 ≤ n)%nat → sqrt (x / INR n) = 0 ↔ x = 0.
Proof.
  intros Hx Hn. assert (0 < INR n) as HN by (apply lt_0_INR; lia).
  assert (0 <= x / INR n) as Hq.
  { apply Rmult_le_pos; [done|]. left. by apply Rinv_0_lt_compat. }
  split.
  - intros Hs. apply sqrt_eq_0 in Hs; [|done].
    apply (Rmult_eq_compat_r (INR n)) in Hs. unfold Rdiv in Hs.
    rewrite Rmult_assoc, Rinv_l in Hs by lra. lra.
  - intros ->. unfold Rdiv. rewrite Rmult_0_l. apply sqrt_0.
Qed.

Lemma np_all_eq_same_length_sym (a b : list Z) :
  length a = length b → np_all_eq a b = np_all_eq b a.
Proof.
  intros Hlen. unfold np_all_eq. rewrite Hlen, Nat.eqb_refl.
  clear Hlen. revert b. induction a as [|x a IH]; intros [|y b]; try done.
  simpl. by rewrite Z.eqb_sym, IH.
Qed.

Lemma same_shape_sym {A : Type} (a b : list A) :
  same_shape a b = same_shape b a.
Proof. unfold same_shape. apply Nat.eqb_sym. Qed.

(** ** The dummy RMSD as a distance *)

(** X11: for two molecules with the same number of atoms, [rmsd_dummy]
    with [center=False] does not depend on the order of its two
    arguments: both calls return the same number, or both raise
    [AssertionError], and neither touches the heap. *)
Theorem rmsd_dummy_uncentred_symmetric (mol1 mol2 : Molecule) (h : heap) :
  len mol1 = len mol2 →
  rmsd_dummy mol1 mol2 false h = rmsd_dummy mol2 mol1 false h.
Proof.
  intros Hlen. rewrite !rmsd_dummy_run. simpl.
  rewrite (np_all_eq_same_length_sym _ _ Hlen), (same_shape_sym (h _)).
  destruct (_ && _).
  - by rewrite np_sum_sq_sym, Hlen.
  - unfold comparison_error, broadcastable. unfold len in Hlen.
    by rewrite Hlen, !Nat.eqb_refl.
Qed.

Lemma rmsd_dummy_uncentred_symmetric_witness :
  len molA = len molB ∧
  rmsd_dummy molA molB false heapAB = rmsd_dummy molB molA false heapAB.
Proof.
  split; [reflexivity|].
  apply (rmsd_dummy_uncentred_symmetric molA molB heapAB). reflexivity.
Defined.

(** X12: when both assertions pass and the molecules have at least one
    atom, [rmsd_dummy] with [center=False] returns a number that is not
    negative, and returns 0 exactly when the two coordinate arrays are
    equal, atom by atom. *)
Theorem rmsd_dummy_zero_iff_equal (mol1 mol2 : Molecule) (h : heap) :
  np_all_eq (atomicnums mol1) (atomicnums mol2) = true →
  same_shape (h (coordinates mol1)) (h (coordinates mol2)) = true →
  (1 ≤ len mol1)%nat →
  (∃ r, rmsd_dummy mol1 mol2 false h = (Ok r, h) ∧ 0 <= r) ∧
  (rmsd_dummy mol1 mol2 false h = (Ok 0, h) ↔
   h (coordinates mol1) = h (coordinates mol2)).
Proof.
  intros Hn Hc HN. rewrite rmsd_dummy_run, Hn, Hc. simpl. split.
  - eexists. split; [done|]. apply sqrt_pos.
  - apply Nat.eqb_eq in Hc. rewrite <- (np_sum_sq_zero _ _ Hc).
    rewrite <- (sqrt_div_zero _ (len mol1)); [|apply np_sum_sq_nonneg|done].
    split; [by intros [= ->]|by intros ->].
Qed.

Lemma rmsd_dummy_zero_iff_equal_witness :
  np_all_eq (atomicnums molA) (atomicnums molB) = true ∧
  same_shape (heapAA (coordinates molA)) (heapAA (coordinates molB)) = true ∧
  (1 ≤ len molA)%nat ∧
  (rmsd_dummy molA molB false heapAA = (Ok 0, heapAA) ↔
   heapAA (coordinates molA) = heapAA (coordinates molB)).
Proof.
  split; [reflexivity|]. split; [reflexivity|]. split; [unfold len; simpl; lia|].
  apply (rmsd_dummy_zero_iff_equal molA molB heapAA);
    [reflexivity | reflexivity | unfold len; simpl; lia].
Defined.

(** X13: two molecules that share one coordinate array (the same
    molecule passed twice, say) and have equal atomic numbers and at
    least one atom are at dummy RMSD 0, with or without centering. *)
Theorem rmsd_dummy_shared_coordinates (mol1 mol2 : Molecule) (center : bool)
    (h : heap) :
  coordinates mol1 = coordinates mol2 →
  np_all_eq (atomicnums mol1) (atomicnums mol2) = true →
  (1 ≤ len mol1)%nat →
  (rmsd_dummy mol1 mol2 center h).1 = Ok 0.
Proof.
  intros Hl Hn HN. rewrite rmsd_dummy_run, Hn, Hl. unfold same_shape.
  rewrite Nat.eqb_refl. simpl. f_equal.
  apply sqrt_div_zero; [apply np_sum_sq_nonneg|done|].
  by apply np_sum_sq_zero.
Qed.

Lemma rmsd_dummy_shared_coordinates_witness :
  coordinates molA = coordinates molA ∧
  np_all_eq (atomicnums molA) (atomicnums molA) = true ∧
  (1 ≤ len molA)%nat ∧
  (rmsd_dummy molA molA true heapAB).1 = Ok 0.
Proof.
  split; [reflexivity|]. split; [reflexivity|]. split; [unfold len; simpl; lia|].
  apply (rmsd_dummy_shared_coordinates molA molA true heapAB);
    [reflexivity | reflexivity | unfold len; simpl; lia].
Defined.

(** ** Centroids, translations and the centering step *)

Lemma point_eq (x y z x' y' z' : R) :
  x = x' → y = y' → z = z' → (x, y, z) = (x', y', z').
Proof. by intros -> -> ->. Qed.

Lemma sum_x_translate (a : coords) (v : point) :
  foldr (λ (p : point) acc, p.1.1 + acc) 0 (translate a v)
  = foldr (λ (p : point) acc, p.1.1 + acc) 0 a + INR (length a) * v.1.1.
Proof.
  induction a as [|p a IH]; [simpl; lra|].
  change (length (p :: a)) with (S (length a)). rewrite S_INR.
  simpl in *. rewrite IH. lra.
Qed.

Lemma sum_y_translate (a : coords) (v : point) :
  foldr (λ (p : point) acc, p.1.2 + acc) 0 (translate a v)
  = foldr (λ (p : point) acc, p.1.2 + acc) 0 a + INR (length a) * v.1.2.
Proof.
  induction a as [|p a IH]; [simpl; lra|].
  change (length (p :: a)) with (S (length a)). rewrite S_INR.
  simpl in *. rewrite IH. lra.
Qed.

Lemma sum_z_translate (a : coords) (v : point) :
  foldr (λ (p : point) acc, p.2 + acc) 0 (translate a v)
  = foldr (λ (p : point) acc, p.2 + acc) 0 a + INR (length a) * v.2.
Proof.
  induction a as [|p a IH]; [simpl; lra|].
  change (length (p :: a)) with (S (length a)). rewrite S_INR.
  simpl in *. rewrite IH. lra.
Qed.

Lemma length_translate (a : coords) (v : point) :
  length (translate a v) = length a.
Proof. unfold translate. by rewrite length_fmap. Qed.

Lemma centroid_translate (a : coords) (v : point) :
  (1 ≤ length a)%nat → centroid (translate a v) = padd (centroid a) v.
Proof.
  intros Hn. assert (0 < INR (length a)) as HN by (apply lt_0_INR; lia).
  unfold centroid, padd.
  rewrite sum_x_translate, sum_y_translate, sum_z_translate, length_translate.
  simpl. apply point_eq; field; lra.
Qed.

Lemma np_sub_row_translate (a : coords) (c v : point) :
  np_sub_row (translate a v) (padd c v) = np_sub_row a c.
Proof.
  unfold np_sub_row, translate. rewrite <- list_fmap_compose.
  apply list_fmap_ext. intros _ p _. simpl.
  unfold psub, padd. simpl. apply point_eq; lra.
Qed.

Lemma centre_translate (a : coords) (v : point) :
  centre (translate a v) = centre a.
Proof.
  destruct a as [|p a]; [done|]. unfold centre.
  rewrite centroid_translate by (unfold len; simpl; lia). apply np_sub_row_translate.
Qed.

Lemma translate_opp (a : coords) (c : point) :
  np_sub_row a c = translate a (- c.1.1, - c.1.2, - c.2).
Proof.
  unfold np_sub_row, translate. apply list_fmap_ext. intros _ p _.
  unfold psub, padd. simpl. apply point_eq; lra.
Qed.

Lemma centroid_centre (a : coords) :
  (1 ≤ length a)%nat → centroid (centre a) = (0, 0, 0).
Proof.
  intros Hn. unfold centre. rewrite translate_opp, centroid_translate by done.
  unfold padd. simpl. apply point_eq; lra.
Qed.

Lemma np_sub_row_zero (a : coords) : np_sub_row a (0, 0, 0) = a.
Proof.
  unfold np_sub_row. rewrite <- (list_fmap_id a) at 2.
  apply list_fmap_ext. intros _ [[x y] z] _. unfold psub. simpl.
  apply point_eq; lra.
Qed.

Lemma centre_idempotent (a : coords) : centre (centre a) = centre a.
Proof.
  destruct a as [|p a]; [done|]. unfold centre at 1.
  rewrite centroid_centre by (unfold len; simpl; lia). apply np_sub_row_zero.
Qed.

(** The heap after the centering step, reference by reference: also when
    the two molecules share one array, which is then centred twice. *)
Lemma centered_lookup (mol1 mol2 : Molecule) (h : heap) (l : nat) :
  centered mol1 mol2 true h l =
  if decide (l = coordinates mol1 ∨ l = coordinates mol2)
  then centre (h l) else h l.
Proof.
  unfold centered. fold (centre (h (coordinates mol1))).
  set (h1 := <[coordinates mol1 := centre (h (coordinates mol1))]> h).
  fold (centre (h1 (coordinates mol2))).
  destruct (decide (l = coordinates mol2)) as [->|Hl2].
  - rewrite fn_lookup_insert, decide_True by (by right). unfold h1.
    destruct (decide (coordinates mol1 = coordinates mol2)) as [->|Hne].
    + by rewrite fn_lookup_insert, centre_idempotent.
    + by rewrite fn_lookup_insert_ne.
  - rewrite fn_lookup_insert_ne by done. unfold h1.
    destruct (decide (l = coordinates mol1)) as [->|Hl1].
    + by rewrite fn_lookup_insert, decide_True by (by left).
    + rewrite fn_lookup_insert_ne by done.
      by rewrite decide_False by (intros [?|?]; done).
Qed.

Lemma length_centered (mol1 mol2 : Molecule) (center : bool) (h : heap)
    (l : nat) :
  length (centered mol1 mol2 center h l) = length (h l).
Proof.
  destruct center; [|done]. rewrite centered_lookup.
  case_decide; [apply length_centre|done].
Qed.

Lemma centered_idempotent (mol1 mol2 : Molecule) (h : heap) (l : nat) :
  centered mol1 mol2 true (centered mol1 mol2 true h) l
  = centered mol1 mol2 true h l.
Proof.
  rewrite !centered_lookup. case_decide; [|done]. apply centre_idempotent.
Qed.

Lemma same_shape_centered (mol1 mol2 : Molecule) (h : heap) :
  same_shape (centered mol1 mol2 true h (coordinates mol1))
             (centered mol1 mol2 true h (coordinates mol2))
  = same_shape (h (coordinates mol1)) (h (coordinates mol2)).
Proof. unfold same_shape. by rewrite !length_centered. Qed.

Lemma centered_comm (mol1 mol2 : Molecule) (center : bool) (h : heap)
    (l : nat) :
  centered mol1 mol2 center h l = centered mol2 mol1 center h l.
Proof.
  destruct center; [|done]. rewrite !centered_lookup.
  destruct (decide (l = coordinates mol1)), (decide (l = coordinates mol2));
    repeat case_decide; tauto || done.
Qed.

Lemma translated_lookup (mol1 mol2 : Molecule) (h : heap) (v1 v2 : point) :
  let h' := <[coordinates mol2 := translate (h (coordinates mol2)) v2]>
              (<[coordinates mol1 := translate (h (coordinates mol1)) v1]> h) in
  (∃ v, h' (coordinates mol1) = translate (h (coordinates mol1)) v) ∧
  h' (coordinates mol2) = translate (h (coordinates mol2)) v2.
Proof.
  intros h'. unfold h'. split; [|by rewrite fn_lookup_insert].
  destruct (decide (coordinates mol1 = coordinates mol2)) as [Heq|Hne].
  - exists v2. by rewrite Heq, fn_lookup_insert.
  - exists v1. by rewrite fn_lookup_insert_ne, fn_lookup_insert.
Qed.

(** X14: with [center=True] the value of [rmsd_dummy] does not change
    when the two coordinate arrays are moved beforehand, each by a
    translation of its own: the call on the translated arrays returns the
    same number, or raises as the call on the original ones does. *)
Theorem rmsd_dummy_centred_translation (mol1 mol2 : Molecule) (h : heap)
    (v1 v2 : point) :
  let h' := <[coordinates mol2 := translate (h (coordinates mol2)) v2]>
              (<[coordinates mol1 := translate (h (coordinates mol1)) v1]> h) in
  (rmsd_dummy mol1 mol2 true h').1 = (rmsd_dummy mol1 mol2 true h).1.
Proof.
  intros h'. destruct (translated_lookup mol1 mol2 h v1 v2) as [[v H1] H2].
  fold h' in H1, H2.
  rewrite !rmsd_dummy_run. unfold same_shape.
  rewrite H1, H2, !length_translate. destruct (_ && _); [|done].
  cbv zeta. cbn [fst].
  rewrite !centered_lookup, !decide_True by (by left) || (by right).
  by rewrite H1, H2, !centre_translate.
Qed.

(** X15: a call of [rmsd_dummy] with [center=True] that returns [r]
    leaves each of the two arrays centred on its own centroid and every
    other array as it was; on the heap it leaves, a second call returns
    [r] again, with and without centering, and changes nothing more. *)
Theorem rmsd_dummy_centred_twice (mol1 mol2 : Molecule) (h : heap) (r : R) :
  (rmsd_dummy mol1 mol2 true h).1 = Ok r →
  let h' := (rmsd_dummy mol1 mol2 true h).2 in
  (rmsd_dummy mol1 mol2 false h').1 = Ok r ∧
  (rmsd_dummy mol1 mol2 true h').1 = Ok r ∧
  (∀ l, (rmsd_dummy mol1 mol2 true h').2 l = h' l) ∧
  (∀ l, h' l = if decide (l = coordinates mol1 ∨ l = coordinates mol2)
               then centre (h l) else h l).
Proof.
  rewrite rmsd_dummy_run.
  destruct (np_all_eq _ _ && same_shape _ _) eqn:Hok; [|done].
  cbv zeta. cbn [fst snd]. intros Hr. rewrite <- Hr. clear Hr r.
  set (hc := centered mol1 mol2 true h).
  assert (np_all_eq (atomicnums mol1) (atomicnums mol2)
          && same_shape (hc (coordinates mol1)) (hc (coordinates mol2))
          = true) as Hok'.
  { unfold hc. by rewrite same_shape_centered. }
  rewrite !rmsd_dummy_run, Hok'. cbv zeta. cbn [fst snd].
  change (centered mol1 mol2 false hc) with hc. unfold hc.
  rewrite !centered_idempotent. repeat split; try done.
  - intros l. apply centered_idempotent.
  - intros l. apply centered_lookup.
Qed.

Lemma rmsd_dummy_centred_twice_witness :
  (rmsd_dummy molA molB true heapAB).1 = Ok 1 ∧
  (rmsd_dummy molA molB false (rmsd_dummy molA molB true heapAB).2).1 = Ok 1.
Proof.
  assert ((rmsd_dummy molA molB true heapAB).1 = Ok 1) as Hr.
  { rewrite rmsd_dummy_run.
    change (np_all_eq _ _ && same_shape _ _) with true. cbv zeta. cbn [fst].
    rewrite !centered_lookup, !decide_True by (by left) || (by right).
    f_equal. unfold centre, np_sub_row, centroid. simpl.
    apply sqrt_is; lra. }
  split; [exact Hr|].
  exact (proj1 (rmsd_dummy_centred_twice molA molB heapAB 1 Hr)).
Defined.

(** ** [rmsd_qcp] *)

Lemma rmsd_qcp_run qcp (mol1 mol2 : Molecule) (h : heap) :
  rmsd_qcp qcp mol1 mol2 h =
  if np_all_eq (atomicnums mol1) (atomicnums mol2)
  then (qcp (centre (h (coordinates mol1))) (centre (h (coordinates mol2))), h)
  else (Raise (comparison_error (atomicnums mol1) (atomicnums mol2)), h).
Proof.
  pose proof (np_all_eq_broadcastable (atomicnums mol1) (atomicnums mol2))
    as Hb.
  unfold rmsd_qcp, bind, assert_all_eq, comparison_error, assert, lift, read,
    center_of_geometry, ret.
  destruct (np_all_eq _ _).
  - by rewrite Hb.
  - by destruct (broadcastable _ _).
Qed.

(** X16: whatever [qcp.qcp_rmsd] computes, the result of [rmsd_qcp] does
    not change when the two coordinate arrays are moved beforehand, each
    by a translation of its own. *)
Theorem rmsd_qcp_translation qcp (mol1 mol2 : Molecule) (h : heap)
    (v1 v2 : point) :
  let h' := <[coordinates mol2 := translate (h (coordinates mol2)) v2]>
              (<[coordinates mol1 := translate (h (coordinates mol1)) v1]> h) in
  (rmsd_qcp qcp mol1 mol2 h').1 = (rmsd_qcp qcp mol1 mol2 h).1.
Proof.
  intros h'. destruct (translated_lookup mol1 mol2 h v1 v2) as [[v H1] H2].
  fold h' in H1, H2.
  rewrite !rmsd_qcp_run, H1, H2, !centre_translate.
  by destruct (np_all_eq _ _).
Qed.

(** X17: when the atomic numbers agree and both arrays hold at least one
    point, [rmsd_qcp] hands [qcp.qcp_rmsd] two new arrays whose centroids
    are the origin and leaves the heap as it was; and it returns the same
    after a call of [rmsd_dummy] on the two molecules, which may have
    centred the arrays in place. *)
Theorem rmsd_qcp_centred_input qcp (mol1 mol2 : Molecule) (h : heap) :
  np_all_eq (atomicnums mol1) (atomicnums mol2) = true →
  (1 ≤ length (h (coordinates mol1)))%nat →
  (1 ≤ length (h (coordinates mol2)))%nat →
  let c1 := centre (h (coordinates mol1)) in
  let c2 := centre (h (coordinates mol2)) in
  rmsd_qcp qcp mol1 mol2 h = (qcp c1 c2, h) ∧
  centroid c1 = (0, 0, 0) ∧ centroid c2 = (0, 0, 0) ∧
  ∀ center r, (rmsd_dummy mol1 mol2 center h).1 = Ok r →
    (rmsd_qcp qcp mol1 mol2 (rmsd_dummy mol1 mol2 center h).2).1 = qcp c1 c2.
Proof.
  intros Hn H1 H2 c1 c2. rewrite rmsd_qcp_run, Hn.
  split; [done|]. split; [by apply centroid_centre|].
  split; [by apply centroid_centre|].
  intros center r. rewrite rmsd_dummy_run. destruct (_ && _); [|done].
  cbv zeta. cbn [fst snd]. intros _. rewrite rmsd_qcp_run, Hn. cbn [fst].
  destruct center; [|done].
  rewrite !centered_lookup, !decide_True by (by left) || (by right).
  by rewrite !centre_idempotent.
Qed.

Lemma rmsd_qcp_centred_input_witness :
  np_all_eq (atomicnums molA) (atomicnums molB) = true ∧
  (1 ≤ length (heapAB (coordinates molA)))%nat ∧
  (1 ≤ length (heapAB (coordinates molB)))%nat ∧
  centroid (centre (heapAB (coordinates molA))) = (0, 0, 0).
Proof.
  split; [reflexivity|]. split; [unfold len; simpl; lia|]. split; [unfold len; simpl; lia|].
  apply (rmsd_qcp_centred_input constant_qcp molA molB heapAB);
    [reflexivity | unfold len; simpl; lia | unfold len; simpl; lia].
Defined.

(** ** The mapping of [rmsd_isomorphic] *)

Lemma take_rows_seq (a : coords) : take_rows a (seq 0 (length a)) = Ok a.
Proof.
  rewrite take_rows_in_range.
  - f_equal. apply list_eq. intros i. rewrite list_lookup_fmap.
    destruct (decide (i < length a)%nat) as [Hi|Hi].
    + rewrite lookup_seq_lt by done. simpl. unfold atom.
      destruct (lookup_lt_is_Some_2 a i Hi) as [p Hp]. by rewrite Hp.
    + rewrite lookup_seq_ge by lia. simpl. symmetry.
      apply lookup_ge_None_2. lia.
  - apply List.Forall_forall. intros i Hi. apply in_seq in Hi. lia.
Qed.

Lemma identity_mapping_fst (n : nat) : (identity_mapping n).*1 = seq 0 n.
Proof.
  unfold identity_mapping. rewrite <- list_fmap_compose. apply list_fmap_id.
Qed.

Lemma identity_mapping_snd (n : nat) : (identity_mapping n).*2 = seq 0 n.
Proof.
  unfold identity_mapping. rewrite <- list_fmap_compose. apply list_fmap_id.
Qed.

(** X18: when the graph matcher answers with the identity mapping (every
    atom matched to the atom of the same index, the items in any order)
    and the atomic numbers of the two molecules are equal,
    [rmsd_isomorphic] is [rmsd_dummy]: the same number or the same
    [AssertionError], and the same heap afterwards, with or without
    centering. *)
Theorem rmsd_isomorphic_identity_mapping mg (mol1 mol2 : Molecule)
    (center : bool) (h : heap) (m : list (nat * nat)) :
  np_all_eq (atomicnums mol1) (atomicnums mol2) = true →
  same_shape (atomicnums mol1) (atomicnums mol2) = true →
  mg (to_graph mol1) (to_graph mol2) = Ok m →
  m ≡ₚ identity_mapping (length (h (coordinates mol1))) →
  rmsd_isomorphic mg mol1 mol2 center h = rmsd_dummy mol1 mol2 center h.
Proof.
  intros Hn Hs Hm Hp. rewrite rmsd_isomorphic_run, rmsd_dummy_run, Hn, Hs.
  destruct (same_shape (h _) _) eqn:Hc.
  2: { cbn [andb]. unfold comparison_error.
       by rewrite np_all_eq_broadcastable. }
  cbn [andb]. cbv zeta. rewrite Hm. f_equal.
  rewrite (candidate_rmsd_Permutation _ _ _ _ _ Hp).
  rewrite identity_mapping_fst, identity_mapping_snd. unfold candidate_rmsd.
  apply Nat.eqb_eq in Hc.
  rewrite <- (length_centered mol1 mol2 center h (coordinates mol1)) at 1.
  rewrite take_rows_seq. cbn [rbind].
  rewrite Hc, <- (length_centered mol1 mol2 center h (coordinates mol2)).
  by rewrite take_rows_seq.
Qed.

Lemma rmsd_isomorphic_identity_mapping_witness :
  np_all_eq (atomicnums molA) (atomicnums molB) = true ∧
  same_shape (atomicnums molA) (atomicnums molB) = true ∧
  first_isomorphism (to_graph molA) (to_graph molB) = Ok [(1, 1); (0, 0)]%nat ∧
  rmsd_isomorphic first_isomorphism molA molB true heapAB
  = rmsd_dummy molA molB true heapAB.
Proof.
  split; [reflexivity|]. split; [reflexivity|].
  split; [exact first_isomorphism_H2|].
  apply (rmsd_isomorphic_identity_mapping first_isomorphism molA molB true
           heapAB [(1, 1); (0, 0)]%nat);
    [reflexivity | reflexivity | exact first_isomorphism_H2 |
     apply Permutation_swap].
Defined.

(** X19: [rmsd_isomorphic] does not depend on the order in which the
    mapping lists its items: two matchers that answer with the same
    items in different orders give the same result and the same heap. *)
Theorem rmsd_isomorphic_item_order mg mg' (mol1 mol2 : Molecule)
    (center : bool) (h : heap) (m m' : list (nat * nat)) :
  mg (to_graph mol1) (to_graph mol2) = Ok m →
  mg' (to_graph mol1) (to_graph mol2) = Ok m' →
  m ≡ₚ m' →
  rmsd_isomorphic mg mol1 mol2 center h
  = rmsd_isomorphic mg' mol1 mol2 center h.
Proof.
  intros Hm Hm' Hp. rewrite !rmsd_isomorphic_run, Hm, Hm'.
  destruct (_ && _); [|done]. cbv zeta.
  by rewrite (candidate_rmsd_Permutation _ _ _ _ _ Hp).
Qed.

Lemma rmsd_isomorphic_item_order_witness :
  first_isomorphism (to_graph molA) (to_graph molB) = Ok [(1, 1); (0, 0)]%nat ∧
  identity_on_two (to_graph molA) (to_graph molB) = Ok [(0, 0); (1, 1)]%nat ∧
  rmsd_isomorphic first_isomorphism molA molB false heapAB
  = rmsd_isomorphic identity_on_two molA molB false heapAB.
Proof.
  split; [exact first_isomorphism_H2|]. split; [reflexivity|].
  apply (rmsd_isomorphic_item_order first_isomorphism identity_on_two
           molA molB false heapAB [(1, 1); (0, 0)]%nat [(0, 0); (1, 1)]%nat);
    [exact first_isomorphism_H2 | reflexivity | apply Permutation_swap].
Defined.

Lemma in_range_split (N : nat) (m : list (nat * nat)) :
  Forall (λ p, (p.1 < N)%nat ∧ (p.2 < N)%nat) m ↔
  Forall (λ i, (i < N)%nat) (m.*1) ∧ Forall (λ i, (i < N)%nat) (m.*2).
Proof.
  induction m as [|p m IH]; simpl.
  - split; [by intros _|by intros _; constructor].
  - rewrite !Forall_cons, IH. tauto.
Qed.

(** X20: once both assertions of [rmsd_isomorphic] have passed on arrays
    of [N] points, the arrays are centred (when [center] is set) before
    the matcher is called, so that every outcome leaves the centred heap
    behind: an error of the matcher is passed on as it is, a mapping with
    a key or a value that is not below [N] ends in [IndexError], and
    every other mapping gives a number. *)
Theorem rmsd_isomorphic_after_the_checks mg (mol1 mol2 : Molecule)
    (center : bool) (h : heap) :
  same_shape (atomicnums mol1) (atomicnums mol2) = true →
  same_shape (h (coordinates mol1)) (h (coordinates mol2)) = true →
  let h' := centered mol1 mol2 center h in
  let N := length (h (coordinates mol1)) in
  (∀ e, mg (to_graph mol1) (to_graph mol2) = Raise e →
        rmsd_isomorphic mg mol1 mol2 center h = (Raise e, h')) ∧
  (∀ m, mg (to_graph mol1) (to_graph mol2) = Ok m →
        (Forall (λ p, (p.1 < N)%nat ∧ (p.2 < N)%nat) m →
         ∃ r, rmsd_isomorphic mg mol1 mol2 center h = (Ok r, h')) ∧
        (¬ Forall (λ p, (p.1 < N)%nat ∧ (p.2 < N)%nat) m →
         rmsd_isomorphic mg mol1 mol2 center h = (Raise IndexError, h'))).
Proof.
  intros Hs Hc h' N. rewrite rmsd_isomorphic_run, Hs, Hc. cbn [andb].
  cbv zeta. fold h'. split.
  - intros e He. by rewrite He.
  - intros m Hm. rewrite Hm. unfold candidate_rmsd.
    assert (length (h' (coordinates mol1)) = N) as H1
      by apply length_centered.
    assert (length (h' (coordinates mol2)) = N) as H2.
    { unfold h'. rewrite length_centered. apply Nat.eqb_eq in Hc. done. }
    rewrite in_range_split. split.
    + intros [Hk Hv].
      rewrite (take_rows_in_range _ (m.*1)), (take_rows_in_range _ (m.*2))
        by (by rewrite ?H1, ?H2).
      by eexists.
    + intros Hno.
      destruct (decide (Forall (λ i, (i < N)%nat) (m.*1))) as [Hk|Hk].
      * rewrite (take_rows_in_range _ (m.*1)) by (by rewrite H1). cbn [rbind].
        rewrite take_rows_out_of_range; [done|]. rewrite H2. tauto.
      * rewrite take_rows_out_of_range; [done|]. by rewrite H1.
Qed.

Lemma rmsd_isomorphic_after_the_checks_witness :
  same_shape (atomicnums molA) (atomicnums molB) = true ∧
  same_shape (heapAB (coordinates molA)) (heapAB (coordinates molB)) = true ∧
  (∀ e, first_isomorphism (to_graph molA) (to_graph molB) = Raise e →
        rmsd_isomorphic first_isomorphism molA molB true heapAB
        = (Raise e, centered molA molB true heapAB)).
Proof.
  split; [reflexivity|]. split; [reflexivity|].
  apply (rmsd_isomorphic_after_the_checks first_isomorphism molA molB true
           heapAB); reflexivity.
Defined.

(** ** The two molecules exchanged *)

Lemma candidate_rmsd_sym (a1 a2 : coords) (n : nat) (ks vs : list nat) :
  candidate_rmsd a1 a2 n ks vs = candidate_rmsd a2 a1 n vs ks.
Proof.
  unfold candidate_rmsd.
  destruct (decide (Forall (λ i, (i < length a1)%nat) ks)) as [Hk|Hk];
    destruct (decide (Forall (λ i, (i < length a2)%nat) vs)) as [Hv|Hv];
    rewrite ?(take_rows_in_range a1 ks), ?(take_rows_in_range a2 vs),
      ?(take_rows_out_of_range a1 ks), ?(take_rows_out_of_range a2 vs)
      by done; try done.
  cbn [rbind]. by rewrite np_sum_sq_sym.
Qed.

(** X21: [rmsd_isomorphic] of the two molecules exchanged, with a matcher
    that answers with the mapping turned round, returns the same number
    or raises the same exception, and leaves the same arrays behind. *)
Theorem rmsd_isomorphic_exchanged mg mg' (mol1 mol2 : Molecule)
    (center : bool) (h : heap) (m : list (nat * nat)) :
  mg (to_graph mol1) (to_graph mol2) = Ok m →
  mg' (to_graph mol2) (to_graph mol1) = Ok (nx.swap_mapping m) →
  (rmsd_isomorphic mg mol1 mol2 center h).1
  = (rmsd_isomorphic mg' mol2 mol1 center h).1 ∧
  ∀ l, (rmsd_isomorphic mg mol1 mol2 center h).2 l
       = (rmsd_isomorphic mg' mol2 mol1 center h).2 l.
Proof.
  intros Hm Hm'. rewrite !rmsd_isomorphic_run, Hm, Hm'.
  rewrite (same_shape_sym (atomicnums mol2)),
    (same_shape_sym (h (coordinates mol2))).
  destruct (same_shape (atomicnums mol1) _) eqn:Hs; [|done].
  destruct (same_shape (h _) _); [|done]. cbn [andb]. cbv zeta. cbn [fst snd].
  split; [|intros l; apply centered_comm].
  rewrite nx_laws.swap_mapping_fst, nx_laws.swap_mapping_snd.
  rewrite (centered_comm mol2 mol1),
    (centered_comm mol2 mol1 _ _ (coordinates mol1)).
  apply Nat.eqb_eq in Hs. unfold len. rewrite <- Hs.
  apply candidate_rmsd_sym.
Qed.

Lemma rmsd_isomorphic_exchanged_witness :
  first_isomorphism (to_graph molA) (to_graph molB) = Ok [(1, 1); (0, 0)]%nat ∧
  first_isomorphism (to_graph molB) (to_graph molA)
    = Ok (nx.swap_mapping [(1, 1); (0, 0)]%nat) ∧
  (rmsd_isomorphic first_isomorphism molA molB true heapAB).1
  = (rmsd_isomorphic first_isomorphism molB molA true heapAB).1.
Proof.
  split; [exact first_isomorphism_H2|]. split; [exact first_isomorphism_H2|].
  exact (proj1 (rmsd_isomorphic_exchanged first_isomorphism first_isomorphism
                  molA molB true heapAB [(1, 1); (0, 0)]%nat
                  first_isomorphism_H2 first_isomorphism_H2)).
Defined.

End rmsd_laws.
